(** * EasyWorship schedule updater: the search / substitute / diff engine

    A shallow embedding of [EWDatabaseRewriter] from [scheduleConverter.py]
    and the properties of its matcher, substituter, diff renderer, scan pass
    and rewrite pass.

    Python [str] values are modelled as lists of 8-bit characters, and
    [str.lower] by its action on the ASCII letters; integers are [Z], and
    so are the two counters, which the program keeps as floats.  A [while]
    loop runs on an iteration budget, so that a loop that never ends can be
    told from one that returns.  The regular expressions of [re] and the
    statements handed to [sqlite3] are parameters; the informative prints of
    the passes are kept as one event each. *)

From Stdlib Require Import Ascii String.
From Stdlib Require Import List ZArith Bool Lia.
From Equations Require Import Equations.
Import ListNotations.
Open Scope Z_scope.

(** ** Python strings *)

Module Py.

Definition str := list ascii.

Definition lit (s : string) : str := list_ascii_of_string s.

Definition len (s : str) : Z := Z.of_nat (length s).

(** [c.lower()] on one character. *)
Definition lower_char (c : ascii) : ascii :=
  let n := N_of_ascii c in
  if ((65 <=? n) && (n <=? 90))%N then ascii_of_N (n + 32) else c.

(** [s.lower()] *)
Definition lower (s : str) : str := map lower_char s.

(** A slice bound [i] of a sequence of length [n]: a negative bound counts
    from the end, and the result is clamped to [0..n]. *)
Definition slice_index (n i : Z) : nat :=
  let j := if i <? 0 then i + n else i in
  Z.to_nat (Z.max 0 (Z.min n j)).

(** [s[lo:hi]] *)
Definition slice (s : str) (lo hi : Z) : str :=
  let a := slice_index (len s) lo in
  let b := slice_index (len s) hi in
  firstn (b - a) (skipn a s).

(** [s[lo:]] *)
Definition slice_from (s : str) (lo : Z) : str :=
  skipn (slice_index (len s) lo) s.

(** [s.startswith(sub)] *)
Fixpoint startswith (sub s : str) : bool :=
  match sub, s with
  | [], _ => true
  | _ :: _, [] => false
  | a :: sub', b :: s' => Ascii.eqb a b && startswith sub' s'
  end.

(** The lowest position at which [sub] starts in [s], where [s] is the
    part of the haystack that begins at absolute position [pos]. *)
Fixpoint find_at (sub s : str) (pos : nat) : option nat :=
  if startswith sub s then Some pos
  else match s with
       | [] => None
       | _ :: s' => find_at sub s' (S pos)
       end.

(** [s.find(sub, start)]: the lowest index [i >= start] with
    [s[i:i+len(sub)] == sub], or [-1]. *)
Definition find (s sub : str) (start : Z) : Z :=
  if len s <? start then -1
  else
    let a := slice_index (len s) start in
    match find_at sub (skipn a s) a with
    | Some i => Z.of_nat i
    | None => -1
    end.

(** [sub in s] *)
Definition contains (sub s : str) : bool :=
  match find_at sub s 0 with
  | Some _ => true
  | None => false
  end.

(** [s.replace(old, new)] for a non-empty [old = o :: old']: the
    non-overlapping occurrences, left to right. *)
Equations? replace_nonempty (o : ascii) (old' new s : str) : str
  by wf (length s) lt :=
  replace_nonempty o old' new [] := [];
  replace_nonempty o old' new (c :: s') with startswith (o :: old') (c :: s') => {
    | true := new ++ replace_nonempty o old' new (skipn (length old') s');
    | false := c :: replace_nonempty o old' new s' }.
Proof.
  rewrite length_skipn. lia.
Qed.

(** [s.replace(old, new)]; an empty [old] matches before every character
    and at the end. *)
Definition replace (s old new : str) : str :=
  match old with
  | [] => new ++ flat_map (fun c => c :: new) s
  | o :: old' => replace_nonempty o old' new s
  end.

End Py.

Import Py.

(** ** Outcomes of Python code *)

(** The exceptions the engine can meet. *)
Inductive exn :=
| TypeError
| AttributeError
| IndexError
| ZeroDivisionError
| OperationalError  (* sqlite3.OperationalError *)
| IntegrityError    (* sqlite3.IntegrityError *)
| ReError.          (* re.error *)

(** A call returns a value, raises, or is still running when the iteration
    budget of a [while] loop is used up. *)
Inductive result (A : Type) :=
| Ok (a : A)
| Raise (e : exn)
| Running.
Arguments Ok {A} a.
Arguments Raise {A} e.
Arguments Running {A}.

Definition of_option {A} (o : option A) : result A :=
  match o with
  | Some a => Ok a
  | None => Running
  end.

(** [while cond: st = body(st)], for at most [fuel] iterations. *)
Fixpoint while {S : Type} (fuel : nat) (cond : S -> bool) (body : S -> S)
  (st : S) : option S :=
  match fuel with
  | O => if cond st then None else Some st
  | S fuel' => if cond st then while fuel' cond body (body st) else Some st
  end.

(** ** Cells *)

(** The Python values sqlite3 hands back for a cell. *)
Inductive cell :=
| CNull                       (* None *)
| CInt (n : Z)                (* int *)
| CReal (bits : Z)            (* float, by its bit pattern *)
| CText (s : str)             (* str *)
| CBlob (b : list Byte.byte). (* bytes *)

Definition is_text (c : cell) : bool :=
  match c with
  | CText _ => true
  | _ => false
  end.

(** ** Matcher and substituter, plain mode *)

(** [searchValuePlain]: [searchstring.lower() in value.lower()] or
    [searchstring in value].  Only [str] and [bytes] have [lower], and
    [str in x] needs [x] to be a [str]. *)
Definition searchValuePlain (ignorecase : bool) (searchstring : str)
  (value : cell) : result bool :=
  if ignorecase then
    match value with
    | CText v => Ok (contains (lower searchstring) (lower v))
    | CBlob _ => Raise TypeError
    | _ => Raise AttributeError
    end
  else
    match value with
    | CText v => Ok (contains searchstring v)
    | _ => Raise TypeError
    end.

(** The variables of the loop of [substituteValuePlain]. *)
Record subst_state := { newstr : str; lastIndex : Z }.

Definition subst_cond (value : str) (st : subst_state) : bool :=
  lastIndex st <? len value.

Definition subst_body (searchstring replacement value : str)
  (st : subst_state) : subst_state :=
  let index := find (lower value) (lower searchstring) (lastIndex st) in
  if index <? 0 then
    {| newstr := newstr st ++ slice_from value (lastIndex st);
       lastIndex := len value |}
  else
    {| newstr := (newstr st ++ slice value (lastIndex st) index) ++ replacement;
       lastIndex := index + len searchstring |}.

(** [substituteValuePlain]: note which branch the flag selects. *)
Definition substituteValuePlain (fuel : nat) (ignorecase : bool)
  (searchstring replacement value : str) : result str :=
  if ignorecase then
    Ok (replace value searchstring replacement)
  else
    of_option (option_map newstr
      (while fuel (subst_cond value)
         (subst_body searchstring replacement value)
         {| newstr := []; lastIndex := 0 |})).

(** ** Diff renderer, plain mode *)

(** What is appended to the strings [original] and [new]: text as it is,
    or wrapped by [bcolors.fail] / [bcolors.okgreen]. *)
Inductive piece :=
| Raw (s : str)
| Fail (s : str)
| OkGreen (s : str).

Definition piece_text (p : piece) : str :=
  match p with
  | Raw s => s
  | Fail s => s
  | OkGreen s => s
  end.

(** The text of a rendered line, without colours. *)
Definition plain_text (ps : list piece) : str := concat (map piece_text ps).

(** The spans of a rendered line: what follows the ["- "] / ["+ "] tag. *)
Definition spans (ps : list piece) : list piece := tl ps.

Module Diff.

(** The variables of the renderers' loops; [printed] collects the
    [print(index, lastIndex)] of the plain renderer. *)
Record state := {
  original : list piece;
  new : list piece;
  lastIndex : Z;
  discrepency : Z;
  printed : list (Z * Z)
}.

Definition init : state :=
  {| original := [Fail (lit "- ")];
     new := [OkGreen (lit "+ ")];
     lastIndex := 0;
     discrepency := 0;
     printed := [] |}.

End Diff.

Definition diff_cond (value : str) (st : Diff.state) : bool :=
  Diff.lastIndex st <? len value.

Definition diff_body (ignorecase : bool) (search replace value newValue : str)
  (st : Diff.state) : Diff.state :=
  let searchlen := len search in
  let replacelen := len replace in
  let stdDiscrepency := replacelen - searchlen in
  let lastIndex := Diff.lastIndex st in
  let discrepency := Diff.discrepency st in
  let index :=
    if ignorecase then find (lower value) (lower search) lastIndex
    else find value search lastIndex in
  let st1 :=
    if index <? 0 then
      {| Diff.original := Diff.original st;
         Diff.new := Diff.new st;
         Diff.lastIndex := len value;
         Diff.discrepency := discrepency;
         Diff.printed := Diff.printed st ++ [(index, lastIndex)] |}
    else
      {| Diff.original := Diff.original st
           ++ [Raw (slice value lastIndex index);
               Fail (slice value index (index + searchlen))];
         Diff.new := Diff.new st
           ++ [Raw (slice newValue (lastIndex + discrepency) (index + discrepency));
               OkGreen replace];
         Diff.lastIndex := index + searchlen;
         Diff.discrepency := discrepency - stdDiscrepency;
         Diff.printed := Diff.printed st ++ [(index, lastIndex)] |} in
  (* the two statements at the end of the loop body *)
  {| Diff.original := Diff.original st1
       ++ [Raw (slice_from value (Diff.lastIndex st1))];
     Diff.new := Diff.new st1
       ++ [Raw (slice_from newValue (Diff.lastIndex st1 + Diff.discrepency st1))];
     Diff.lastIndex := Diff.lastIndex st1;
     Diff.discrepency := Diff.discrepency st1;
     Diff.printed := Diff.printed st1 |}.

(** [printDifferencePlain]: the state whose [original] and [new] are
    printed. *)
Definition printDifferencePlain (fuel : nat) (ignorecase : bool)
  (search replace value newValue : str) : result Diff.state :=
  of_option (while fuel (diff_cond value)
               (diff_body ignorecase search replace value newValue) Diff.init).

(** ** The [re] module *)

(** Python's regular expressions are not part of the program: they are a
    parameter.  A compiled pattern answers [search], lists the spans
    [(m.start(), m.end())] of [finditer], and substitutes. *)
Class ReEngine := {
  regex : Type;
  re_compile : str -> bool -> result regex;
  re_search : regex -> str -> bool;
  re_finditer : regex -> str -> list (Z * Z);
  re_sub : regex -> str -> str -> result str
}.

(** The value of [self.input]: the search string, or the compiled pattern
    when [useregex] is set. *)
Inductive pattern `{ReEngine} :=
| PPlain (s : str)
| PRegex (r : regex).

Section Engine.
Context `{E : ReEngine}.

(** [searchValueRegex]: [searchstring.search(value)], as a truth value. *)
Definition searchValueRegex (searchstring : regex) (value : cell) : result bool :=
  match value with
  | CText v => Ok (re_search searchstring v)
  | _ => Raise TypeError
  end.

(** [substituteValueRegex] *)
Definition substituteValueRegex (searchstring : regex) (replacement value : str)
  : result str :=
  re_sub searchstring replacement value.

(** The [for m in matches] loop of [printDifferenceRegex]. *)
Fixpoint diff_regex_loop (search : regex) (replace value newValue : str)
  (matches : list (Z * Z)) (st : Diff.state) : result Diff.state :=
  match matches with
  | [] => Ok st
  | (m_start, m_end) :: matches' =>
      match re_sub search replace (slice value m_start m_end) with
      | Ok r =>
          let sublen := len r in
          let lastIndex := Diff.lastIndex st in
          let discrepency := Diff.discrepency st in
          diff_regex_loop search replace value newValue matches'
            {| Diff.original := Diff.original st
                 ++ [Raw (slice value lastIndex m_start);
                     Fail (slice value m_start m_end)];
               Diff.new := Diff.new st
                 ++ [Raw (slice newValue (lastIndex + discrepency)
                            (m_start + discrepency));
                     OkGreen (slice newValue (m_start + discrepency)
                                (m_start + discrepency + sublen))];
               Diff.lastIndex := m_end;
               Diff.discrepency := discrepency + (sublen - (m_end - m_start));
               Diff.printed := Diff.printed st |}
      | Raise e => Raise e
      | Running => Running
      end
  end.

(** [printDifferenceRegex] *)
Definition printDifferenceRegex (search : regex) (replace value newValue : str)
  : result Diff.state :=
  match diff_regex_loop search replace value newValue
          (re_finditer search value) Diff.init with
  | Ok st =>
      Ok {| Diff.original := Diff.original st
              ++ [Raw (slice_from value (Diff.lastIndex st))];
            Diff.new := Diff.new st
              ++ [Raw (slice_from newValue (Diff.lastIndex st + Diff.discrepency st))];
            Diff.lastIndex := Diff.lastIndex st;
            Diff.discrepency := Diff.discrepency st;
            Diff.printed := Diff.printed st |}
  | Raise e => Raise e
  | Running => Running
  end.

End Engine.


(** ** The database behind the connection *)

Definition str_eq_dec : forall a b : str, {a = b} + {a <> b} :=
  list_eq_dec ascii_dec.

Record row := { rowid : Z; cells : list cell }.

Record table := { name : str; columns : list str; rows : list row }.

(** The content of [main.db]: its tables with their rows. *)
Definition database := list table.

Definition find_table (db : database) (t : str) : option table :=
  List.find (fun tb => if str_eq_dec (name tb) t then true else false) db.

(** The position of column [col] in a table's column list. *)
Fixpoint index_of (col : str) (names : list str) : option nat :=
  match names with
  | [] => None
  | n :: names' =>
      if str_eq_dec n col then Some O
      else option_map S (index_of col names')
  end.

Fixpoint set_nth {A : Type} (i : nat) (x : A) (l : list A) : list A :=
  match l, i with
  | [], _ => []
  | _ :: l', O => x :: l'
  | y :: l', S i' => y :: set_nth i' x l'
  end.

(** The rowids of table [t] with the cells of its column [col]. *)
Definition read_column (db : database) (t col : str) : option (list (Z * cell)) :=
  match find_table db t with
  | Some tb =>
      match index_of col (columns tb) with
      | Some i => Some (map (fun r => (rowid r, nth i (cells r) CNull)) (rows tb))
      | None => None
      end
  | None => None
  end.

(** The string [v] put into cell [i] of the row with rowid [id]. *)
Definition update_row (i : nat) (v : str) (id : Z) (r : row) : row :=
  if rowid r =? id
  then {| rowid := rowid r; cells := set_nth i (CText v) (cells r) |}
  else r.

(** The content with the string [v] in column [col] of the row [id] of
    table [t]. *)
Fixpoint update_db (db : database) (t col : str) (v : str) (id : Z)
  : option database :=
  match db with
  | [] => None
  | tb :: db' =>
      if str_eq_dec (name tb) t then
        match index_of col (columns tb) with
        | Some i =>
            Some ({| name := name tb; columns := columns tb;
                     rows := map (update_row i v id) (rows tb) |} :: db')
        | None => None
        end
      else option_map (cons tb) (update_db db' t col v id)
  end.

(** ** The [sqlite3] module *)

(** The rewriter builds its statements by putting the table and column
    names into the SQL text, as they are in the two selects and between
    backquotes in the update.  What a statement then reads or writes is for
    SQLite to say: how it parses the text, in which order a cursor walks a
    table that is written to meanwhile, what a constraint or the affinity
    of a column does to an update.  So SQLite, on the schema of the
    database at hand, is a parameter:

    - [sql_select_all db t] is [c.execute("select * from " + t)] on the
      content [db]: the names of [c.description] and the rows, or the
      exception raised.  Nothing is written while the scan walks these
      rows, so they are taken at once;
    - [sql_select_column db t col] is
      [c.execute('select rowid, {0} from {1}'.format(col, t))]: a cursor;
    - [sql_fetch cur db] is the next step of [for r in result], on the
      content as it is at that moment: the first two values of the next
      row with the cursor moved on, or the end of the rows.  The rewrite
      pass updates the table through a second cursor between two steps;
    - [sql_update db t col v id] is
      [c2.execute("update `t` set `col`=? where `rowid`=?", (v, id))]:
      the content afterwards. *)
Class Sqlite := {
  cursor : Type;
  sql_select_all : database -> str -> result (list str * list (list cell));
  sql_select_column : database -> str -> str -> result cursor;
  sql_fetch : cursor -> database -> result (option ((cell * cell) * cursor));
  sql_update : database -> str -> str -> str -> cell -> result database
}.

(** ** Effects: the connection and standard output *)

(** What the run does to the outside, in order.  The locus and the two
    strings of [EvDiff] are the arguments of the [printDifference] call,
    followed by what it prints. *)
Inductive event :=
| EvListTables
| EvSelectAll (t : str)
| EvSelectColumn (t col : str)
| EvUpdate (t col : str) (v : str) (id : cell)
| EvCommit
| EvClose
| EvDiff (t col : str) (id : cell) (value newValue : str) (d : Diff.state)
| EvProgress (replaced_count expectedTotal : Z)
| EvFound (total : Z) (tables : list (str * list str))
| EvNothing
| EvSummary (replaced_count : Z) (tables : list (str * list str)).

(** [file] is what is committed to [main.db]; [txn] is what the connection
    sees, with its uncommitted updates; [log] is the trace. *)
Record world := { file : database; txn : database; log : list event }.

Definition M (A : Type) : Type := world -> result A * world.

Definition ret {A} (a : A) : M A := fun w => (Ok a, w).

Definition bind {A B} (m : M A) (k : A -> M B) : M B :=
  fun w =>
    match m w with
    | (Ok a, w') => k a w'
    | (Raise e, w') => (Raise e, w')
    | (Running, w') => (Running, w')
    end.

Definition lift {A} (r : result A) : M A := fun w => (r, w).

Definition emit (ev : event) : M unit :=
  fun w => (Ok tt, {| file := file w; txn := txn w; log := log w ++ [ev] |}).

Declare Scope py_scope.
Delimit Scope py_scope with py.
Notation "x <- m ;; k" := (bind m (fun x => k))
  (at level 61, m at next level, right associativity) : py_scope.
Notation "m ;; k" := (bind m (fun _ => k))
  (at level 61, right associativity) : py_scope.
Open Scope py_scope.

(** [for x in l: acc = body(acc, x)] *)
Fixpoint for_each {A B} (body : B -> A -> M B) (l : list A) (acc : B) : M B :=
  match l with
  | [] => ret acc
  | x :: l' => acc' <- body acc x ;; for_each body l' acc'
  end.

(** The same loop for a body without effects on the world. *)
Fixpoint for_each_pure {A B} (body : B -> A -> result B) (l : list A) (acc : B)
  : result B :=
  match l with
  | [] => Ok acc
  | x :: l' =>
      match body acc x with
      | Ok acc' => for_each_pure body l' acc'
      | Raise e => Raise e
      | Running => Running
      end
  end.

(** [enumerate(l)] *)
Fixpoint enumerate_from {A} (i : nat) (l : list A) : list (nat * A) :=
  match l with
  | [] => []
  | x :: l' => (i, x) :: enumerate_from (S i) l'
  end.
Definition enumerate {A} (l : list A) : list (nat * A) := enumerate_from 0 l.

(** [select name from sqlite_master where type = 'table'] *)
Definition getTables : M (list str) :=
  emit EvListTables ;;
  fun w => (Ok (map name (txn w)), w).

(** [self.conn.commit()] *)
Definition commit : M unit :=
  fun w => (Ok tt, {| file := txn w; txn := txn w; log := log w ++ [EvCommit] |}).

(** [self.c.close(); self.conn.close()]: what was not committed is lost. *)
Definition close : M unit :=
  fun w => (Ok tt, {| file := file w; txn := file w; log := log w ++ [EvClose] |}).

Section Connection.
Context `{Q : Sqlite}.

(** [select * from t], with the table name as it is: the names of
    [description] and the rows. *)
Definition select_all (t : str) : M (list str * list (list cell)) :=
  emit (EvSelectAll t) ;;
  fun w => (sql_select_all (txn w) t, w).

(** [select rowid, col from t], with both names as they are. *)
Definition select_column (t col : str) : M cursor :=
  emit (EvSelectColumn t col) ;;
  fun w => (sql_select_column (txn w) t col, w).

(** [c2.execute("update `t` set `col`=? where `rowid`=?", (v, id))] *)
Definition update (t col : str) (v : str) (id : cell) : M unit :=
  fun w =>
    match sql_update (txn w) t col v id with
    | Ok db' =>
        (Ok tt, {| file := file w; txn := db';
                   log := log w ++ [EvUpdate t col v id] |})
    | Raise e => (Raise e, w)
    | Running => (Running, w)
    end.

(** [for r in result: acc = body(acc, r)] over a cursor: each row is
    fetched when the loop comes to it, from the content as the body of the
    rows before has left it.  Nothing bounds the number of rows a cursor
    yields while its table is written to, so the loop runs on the iteration
    budget. *)
Fixpoint for_rows {B} (fuel : nat) (body : B -> cell * cell -> M B)
  (result : cursor) (acc : B) : M B :=
  fun w =>
    match sql_fetch result (txn w) with
    | Ok None => (Ok acc, w)
    | Ok (Some (r, result')) =>
        match fuel with
        | O => (Running, w)
        | S fuel' => (acc' <- body acc r ;; for_rows fuel' body result' acc') w
        end
    | Raise e => (Raise e, w)
    | Running => (Running, w)
    end.

End Connection.

(** ** The rewriter *)

Section Rewriter.
Context `{E : ReEngine} `{Q : Sqlite}.

(** The fields of an [EWDatabaseRewriter].  [__init__] binds
    [searchValue], [printDifference] and [substituteValue] to the plain or
    the regex methods together with the kind of [input]; here the three
    methods dispatch on the pattern they are given. *)
Record EWDatabaseRewriter := {
  dryRun : bool;
  replacewith : str;
  ignorecase : bool;
  input : pattern
}.

(** A dict from table names to lists of column names, in insertion order. *)
Definition report := list (str * list str).

Fixpoint dict_get (d : report) (t : str) : option (list str) :=
  match d with
  | [] => None
  | (k, v) :: d' => if str_eq_dec k t then Some v else dict_get d' t
  end.

Fixpoint dict_set (d : report) (t : str) (v : list str) : report :=
  match d with
  | [] => [(t, v)]
  | (k, v') :: d' =>
      if str_eq_dec k t then (k, v) :: d' else (k, v') :: dict_set d' t v
  end.

Definition searchValue (self : EWDatabaseRewriter) (search : pattern)
  (value : cell) : result bool :=
  match search with
  | PPlain s => searchValuePlain (ignorecase self) s value
  | PRegex r => searchValueRegex r value
  end.

(** [substituteValue] is only reached after [searchValue] has returned,
    that is with a [str]. *)
Definition substituteValue (self : EWDatabaseRewriter) (fuel : nat)
  (search : pattern) (replace : str) (value : cell) : result str :=
  match value with
  | CText v =>
      match search with
      | PPlain s => substituteValuePlain fuel (ignorecase self) s replace v
      | PRegex r => substituteValueRegex r replace v
      end
  | _ => Raise TypeError
  end.

Definition printDifference (self : EWDatabaseRewriter) (fuel : nat)
  (search : pattern) (replace value newValue : str) : result Diff.state :=
  match search with
  | PPlain s => printDifferencePlain fuel (ignorecase self) s replace value newValue
  | PRegex r => printDifferenceRegex r replace value newValue
  end.

(** The [try] / [except] of the scan: record [names[i]] under [t]. *)
Definition record_column (tables_with_string : report) (t : str)
  (names : list str) (i : nat) : result report :=
  match nth_error names i with
  | None => Raise IndexError
  | Some n =>
      match dict_get tables_with_string t with
      | Some cols =>
          if in_dec str_eq_dec n cols then Ok tables_with_string
          else Ok (dict_set tables_with_string t (cols ++ [n]))
      | None => Ok (dict_set tables_with_string t [n])
      end
  end.

(** The body of [for i, cell in enumerate(list(r))]. *)
Definition scan_cell (self : EWDatabaseRewriter) (search : pattern) (t : str)
  (names : list str) (acc : report * Z) (ic : nat * cell) : result (report * Z) :=
  let '(tables_with_string, total_occurences) := acc in
  let '(i, c) := ic in
  match c with
  | CText _ =>
      match searchValue self search c with
      | Ok true =>
          match record_column tables_with_string t names i with
          | Ok tables_with_string' => Ok (tables_with_string', total_occurences + 1)
          | Raise e => Raise e
          | Running => Running
          end
      | Ok false => Ok acc
      | Raise e => Raise e
      | Running => Running
      end
  | _ => Ok acc
  end.

(** The body of [for r in res]. *)
Definition scan_row (self : EWDatabaseRewriter) (search : pattern) (t : str)
  (names : list str) (acc : report * Z) (r : list cell) : result (report * Z) :=
  for_each_pure (scan_cell self search t names) (enumerate r) acc.

Definition scan_table (self : EWDatabaseRewriter) (search : pattern)
  (acc : report * Z) (t : str) : M (report * Z) :=
  res <- select_all t ;;
  lift (for_each_pure (scan_row self search t (fst res)) (snd res) acc).

(** [getTablesWhereStringExists] *)
Definition getTablesWhereStringExists (self : EWDatabaseRewriter)
  (tables : list str) (search : pattern) : M (report * Z) :=
  res <- for_each (scan_table self search) tables ([], 0) ;;
  emit (EvFound (snd res) (fst res)) ;;
  ret res.

(** The body of [for r in result] in [startReplacement]: [r[0]] is what
    the select gave for [rowid], [r[1]] the cell. *)
Definition replace_row (self : EWDatabaseRewriter) (fuel : nat)
  (search : pattern) (replace : str) (expectedTotal : Z) (t col : str)
  (replaced_count : Z) (r : cell * cell) : M Z :=
  let value := snd r in
  found <- lift (searchValue self search value) ;;
  if (found : bool) then
    replaced_col <- lift (substituteValue self fuel search replace value) ;;
    (if dryRun self then
       match value with
       | CText v =>
           d <- lift (printDifference self fuel search replace v replaced_col) ;;
           emit (EvDiff t col (fst r) v replaced_col d)
       | _ => lift (Raise TypeError)
       end
     else
       update t col replaced_col (fst r) ;;
       if replaced_count mod 20 =? 0 then
         if expectedTotal =? 0 then lift (Raise ZeroDivisionError)
         else emit (EvProgress replaced_count expectedTotal)
       else ret tt) ;;
    ret (replaced_count + 1)
  else ret replaced_count.

(** The body of [for col in tables[t]]: the select, the loop over its
    cursor and, in write mode, the commit. *)
Definition replace_column (self : EWDatabaseRewriter) (fuel : nat)
  (search : pattern) (replace : str) (expectedTotal : Z) (t : str)
  (replaced_count : Z) (col : str) : M Z :=
  result <- select_column t col ;;
  replaced_count' <-
    for_rows fuel (replace_row self fuel search replace expectedTotal t col)
      result replaced_count ;;
  (if dryRun self then ret tt else commit) ;;
  ret replaced_count'.

Definition replace_table (self : EWDatabaseRewriter) (fuel : nat)
  (search : pattern) (replace : str) (expectedTotal : Z)
  (replaced_count : Z) (entry : str * list str) : M Z :=
  for_each (replace_column self fuel search replace expectedTotal (fst entry))
    (snd entry) replaced_count.

(** [startReplacement]; the value is the final [replaced_count]. *)
Definition startReplacement (self : EWDatabaseRewriter) (fuel : nat)
  (tables : report) (search : pattern) (replace : str) (expectedTotal : Z) : M Z :=
  replaced_count <-
    for_each (replace_table self fuel search replace expectedTotal) tables 0 ;;
  emit (EvSummary replaced_count tables) ;;
  ret replaced_count.

(** [runReplacement] *)
Definition runReplacement (self : EWDatabaseRewriter) (fuel : nat) : M unit :=
  tables <- getTables ;;
  res <- getTablesWhereStringExists self tables (input self) ;;
  (if snd res >? 0 then
     startReplacement self fuel (fst res) (input self) (replacewith self) (snd res) ;;
     ret tt
   else emit EvNothing) ;;
  close.

(** [EWDatabaseRewriter.__init__].  Before this, [sqlite3.connect] and
    [conn.cursor()] open the connection; they read no table. *)
Definition __init__ (fuel : nat) (search replace : str)
  (useregex dryRun ignoreCase : bool) : M unit :=
  inp <- (if useregex then
            r <- lift (re_compile search ignoreCase) ;; ret (PRegex r)
          else ret (PPlain search)) ;;
  runReplacement {| dryRun := dryRun; replacewith := replace;
                    ignorecase := ignoreCase; input := inp |} fuel.

End Rewriter.

(** ** Examples to run the definitions on *)

(** The occurrences of a literal [r] in [v] from [pos] on, left to right
    without overlap. *)
Fixpoint literal_spans (fuel : nat) (v r : str) (pos : Z) : list (Z * Z) :=
  match fuel with
  | O => []
  | S fuel' =>
      let i := find v r pos in
      if i <? 0 then []
      else (i, i + len r) :: literal_spans fuel' v r (i + Z.max 1 (len r))
  end.

(** A small engine that only knows literal patterns (and rejects a lone
    opening parenthesis), to evaluate the regex-mode definitions. *)
#[local] Instance literal_engine : ReEngine := {|
  regex := str;
  re_compile := fun s _ =>
    if str_eq_dec s (lit "(") then Raise ReError else Ok s;
  re_search := fun r v => contains r v;
  re_finditer := fun r v => literal_spans (S (length v)) v r 0;
  re_sub := fun r repl v => Ok (replace v r repl)
|}.

(** A name that SQLite reads as it stands without quotes: a letter or an
    underscore, then letters, digits and underscores (and no keyword, which
    the examples do not use). *)
Definition name_start (c : ascii) : bool :=
  let n := nat_of_ascii c in
  ((65 <=? n) && (n <=? 90) || (97 <=? n) && (n <=? 122) || (n =? 95))%nat.

Definition name_char (c : ascii) : bool :=
  let n := nat_of_ascii c in
  (name_start c || (48 <=? n) && (n <=? 57))%nat.

Definition bare_name (s : str) : bool :=
  match s with
  | [] => false
  | c :: s' => name_start c && forallb name_char s'
  end.

(** A small SQLite to evaluate the passes with: tables without index,
    constraint or column affinity.  A select with a name that would need
    quotes, or with a name the database does not have, raises
    [OperationalError]; a cursor walks its table in the order of the rows
    and reads each row when it is fetched; an update stores the string in
    the row of that rowid. *)
#[local] Instance plain_sqlite : Sqlite := {|
  cursor := str * str * nat;
  sql_select_all := fun db t =>
    if bare_name t then
      match find_table db t with
      | Some tb => Ok (columns tb, map cells (rows tb))
      | None => Raise OperationalError
      end
    else Raise OperationalError;
  sql_select_column := fun db t col =>
    if bare_name t && bare_name col then
      match read_column db t col with
      | Some _ => Ok (t, col, O)
      | None => Raise OperationalError
      end
    else Raise OperationalError;
  sql_fetch := fun cur db =>
    let '(t, col, k) := cur in
    match read_column db t col with
    | Some rs =>
        match nth_error rs k with
        | Some (id, c) => Ok (Some ((CInt id, c), (t, col, S k)))
        | None => Ok None
        end
    | None => Raise OperationalError
    end;
  sql_update := fun db t col v id =>
    match id with
    | CInt n =>
        match update_db db t col v n with
        | Some db' => Ok db'
        | None => Raise OperationalError
        end
    | _ =>
        match read_column db t col with
        | Some _ => Ok db
        | None => Raise OperationalError
        end
    end
|}.

(** The database of the specification's scenario, with a numeric and a
    null cell beside the titles. *)
Definition songs : database :=
  [ {| name := lit "Songs";
       columns := [lit "id"; lit "title"];
       rows := [ {| rowid := 1; cells := [CInt 1; CText (lit "Amazing Grace")] |};
                 {| rowid := 2; cells := [CInt 2; CText (lit "How Great Thou Art")] |} ] |} ].

Definition songs_world : world := {| file := songs; txn := songs; log := [] |}.

(** * Properties *)

(** ** Strings *)

Lemma startswith_app (sub s : str) :
  startswith sub s = true <-> exists post, s = sub ++ post.
Proof.
  revert s. induction sub as [|a sub IH]; intros s; simpl.
  - split; [intros _; now exists s | reflexivity].
  - destruct s as [|b s].
    + split; [discriminate | intros [post H]; discriminate].
    + rewrite andb_true_iff, Ascii.eqb_eq, IH. split.
      * intros [-> [post ->]]. now exists post.
      * intros [post H]. injection H as -> ->. split; [reflexivity | now exists post].
Qed.

Lemma startswith_length (sub s : str) :
  startswith sub s = true -> (length sub <= length s)%nat.
Proof.
  intros H. apply startswith_app in H as [post ->].
  rewrite length_app. lia.
Qed.

Lemma find_at_Some (sub s : str) (pos i : nat) :
  find_at sub s pos = Some i ->
  exists pre post, s = pre ++ sub ++ post /\ i = (pos + length pre)%nat.
Proof.
  revert pos. induction s as [|c s IH]; intros pos; simpl.
  - destruct (startswith sub []) eqn:Hs; [|discriminate].
    intros [= <-]. apply startswith_app in Hs as [post Hp].
    exists [], post. simpl. split; [assumption | lia].
  - destruct (startswith sub (c :: s)) eqn:Hs.
    + intros [= <-]. apply startswith_app in Hs as [post Hp].
      exists [], post. simpl. split; [assumption | lia].
    + intros H. apply IH in H as (pre & post & -> & ->).
      exists (c :: pre), post. simpl. split; [reflexivity | lia].
Qed.

Lemma find_at_None (sub s : str) (pos : nat) :
  find_at sub s pos = None -> forall pre post, s <> pre ++ sub ++ post.
Proof.
  revert pos. induction s as [|c s IH]; intros pos; simpl.
  - destruct (startswith sub []) eqn:Hs; [discriminate|].
    intros _ pre post H. destruct pre; simpl in H.
    + assert (startswith sub [] = true) by (apply startswith_app; now exists post).
      congruence.
    + discriminate.
  - destruct (startswith sub (c :: s)) eqn:Hs; [discriminate|].
    intros H pre post Heq. destruct pre as [|p pre]; simpl in Heq.
    + assert (startswith sub (c :: s) = true) by (apply startswith_app; now exists post).
      congruence.
    + injection Heq as _ Heq. exact (IH _ H _ _ Heq).
Qed.

Lemma find_at_bounds (sub s : str) (pos i : nat) :
  find_at sub s pos = Some i ->
  (pos <= i)%nat /\ (i + length sub <= pos + length s)%nat.
Proof.
  intros H. apply find_at_Some in H as (pre & post & -> & ->).
  rewrite !length_app. lia.
Qed.

Lemma contains_iff (sub s : str) :
  contains sub s = true <-> exists pre post, s = pre ++ sub ++ post.
Proof.
  unfold contains. destruct (find_at sub s 0) as [i|] eqn:Hf.
  - split; [intros _ | reflexivity].
    apply find_at_Some in Hf as (pre & post & H & _). now exists pre, post.
  - split; [discriminate|].
    intros (pre & post & H). exfalso. exact (find_at_None _ _ _ Hf _ _ H).
Qed.

Lemma slice_index_inside (n i : Z) :
  0 <= i <= n -> slice_index n i = Z.to_nat i.
Proof.
  intros H. unfold slice_index.
  destruct (Z.ltb_spec i 0); [lia|]. f_equal. lia.
Qed.

Lemma find_bounds (s sub : str) (start : Z) :
  0 <= start ->
  find s sub start = -1 \/
  (start <= find s sub start /\ find s sub start + len sub <= len s).
Proof.
  intros Hs. unfold find.
  destruct (Z.ltb_spec (len s) start) as [Hlt|Hle]; [now left|].
  rewrite slice_index_inside by lia.
  destruct (find_at sub _ _) as [i|] eqn:Hf; [right | now left].
  apply find_at_bounds in Hf. rewrite length_skipn in Hf.
  unfold len in *. lia.
Qed.

Lemma find_empty (s : str) (start : Z) :
  0 <= start <= len s -> find s [] start = start.
Proof.
  intros H. unfold find.
  destruct (Z.ltb_spec (len s) start); [lia|].
  rewrite slice_index_inside by lia.
  destruct (skipn _ s); simpl; lia.
Qed.

(** ** Loops *)

Lemma while_measure {S : Type} (cond : S -> bool) (body : S -> S)
  (I : S -> Prop) (m : S -> nat) :
  (forall st, I st -> cond st = true -> I (body st) /\ (m (body st) < m st)%nat) ->
  forall fuel st, I st -> (m st <= fuel)%nat ->
  exists st', while fuel cond body st = Some st' /\ cond st' = false /\ I st'.
Proof.
  intros Hstep fuel. induction fuel as [|fuel IH]; intros st HI Hm; simpl.
  - destruct (cond st) eqn:Hc.
    + destruct (Hstep st HI Hc). lia.
    + now exists st.
  - destruct (cond st) eqn:Hc.
    + destruct (Hstep st HI Hc) as [HI' Hlt]. apply IH; [assumption | lia].
    + now exists st.
Qed.

Lemma while_stuck {S : Type} (cond : S -> bool) (body : S -> S) (I : S -> Prop) :
  (forall st, I st -> cond st = true /\ I (body st)) ->
  forall fuel st, I st -> while fuel cond body st = None.
Proof.
  intros Hstep fuel. induction fuel as [|fuel IH]; intros st HI; simpl;
    destruct (Hstep st HI) as [-> HI']; [reflexivity | now apply IH].
Qed.

(** ** The matcher *)

(** C7: on strings the plain matcher returns, without effects; its answer
    is [true] exactly when the value contains the pattern as a contiguous
    substring (case-sensitive), or when the lower-cased value contains the
    lower-cased pattern (case-insensitive). *)
Theorem searchValuePlain_contract (searchstring value : str) :
  (exists b, searchValuePlain false searchstring (CText value) = Ok b /\
     (b = true <-> exists pre post, value = pre ++ searchstring ++ post)) /\
  (exists b, searchValuePlain true searchstring (CText value) = Ok b /\
     (b = true <->
      exists pre post, lower value = pre ++ lower searchstring ++ post)).
Proof.
  split; eexists; (split; [reflexivity | apply contains_iff]).
Qed.

Lemma searchValuePlain_not_text (ignorecase : bool) (searchstring : str) (c : cell) :
  is_text c = false ->
  searchValuePlain ignorecase searchstring c = Raise TypeError \/
  searchValuePlain ignorecase searchstring c = Raise AttributeError.
Proof.
  destruct ignorecase, c; simpl; intros H; try discriminate; auto.
Qed.

(** ** The substituter *)

Lemma len_lower (s : str) : len (lower s) = len s.
Proof. unfold len, lower. now rewrite length_map. Qed.

Lemma len_nonneg (s : str) : 0 <= len s.
Proof. unfold len. lia. Qed.

Lemma len_pos (s : str) : s <> [] -> 0 < len s.
Proof. destruct s; [congruence | unfold len; simpl; lia]. Qed.

(** One iteration of the scanning loop moves the cursor forward when the
    search string is not empty. *)
Lemma subst_body_advances (searchstring replacement value : str) (st : subst_state) :
  searchstring <> [] ->
  0 <= lastIndex st < len value ->
  lastIndex st + 1 <= lastIndex (subst_body searchstring replacement value st)
  /\ 0 <= lastIndex (subst_body searchstring replacement value st).
Proof.
  intros Hne Hst. unfold subst_body.
  pose proof (len_pos _ Hne) as Hp.
  destruct (find_bounds (lower value) (lower searchstring) (lastIndex st))
    as [Hf|[Hlo Hhi]]; [lia | rewrite Hf; simpl; lia |].
  rewrite len_lower in *.
  destruct (Z.ltb_spec (find (lower value) (lower searchstring) (lastIndex st)) 0);
    simpl; lia.
Qed.

(** With the empty search string an iteration leaves the cursor where it
    is. *)
Lemma subst_body_empty_search (replacement value : str) (st : subst_state) :
  0 <= lastIndex st < len value ->
  lastIndex (subst_body [] replacement value st) = lastIndex st.
Proof.
  intros Hst. unfold subst_body. simpl lower.
  rewrite find_empty by (rewrite len_lower; lia).
  destruct (Z.ltb_spec (lastIndex st) 0); [lia|]. simpl. unfold len. simpl. lia.
Qed.

Lemma substituteValuePlain_returns (searchstring replacement value : str) (fuel : nat) :
  searchstring <> [] ->
  (length value <= fuel)%nat ->
  exists r, substituteValuePlain fuel false searchstring replacement value = Ok r.
Proof.
  intros Hne Hfuel. unfold substituteValuePlain.
  destruct (while_measure (subst_cond value)
              (subst_body searchstring replacement value)
              (fun st => 0 <= lastIndex st)
              (fun st => Z.to_nat (len value - lastIndex st)))
    with (fuel := fuel) (st := {| newstr := []; lastIndex := 0 |})
    as (st' & -> & _).
  - intros st HI Hc. unfold subst_cond in Hc. apply Z.ltb_lt in Hc.
    destruct (subst_body_advances searchstring replacement value st Hne); lia.
  - simpl. lia.
  - simpl. unfold len. lia.
  - now eexists.
Qed.

Lemma substituteValuePlain_spins (replacement value : str) (fuel : nat) :
  value <> [] ->
  substituteValuePlain fuel false [] replacement value = Running.
Proof.
  intros Hne. unfold substituteValuePlain.
  rewrite (while_stuck (subst_cond value) (subst_body [] replacement value)
             (fun st => lastIndex st = 0)); [reflexivity | | reflexivity].
  intros st H. pose proof (len_pos _ Hne). split.
  - unfold subst_cond. apply Z.ltb_lt. lia.
  - rewrite subst_body_empty_search; lia.
Qed.

(** C10, as amended: for a non-empty search string the scanning loop
    returns for every value within [len(value)] iterations, each of which
    moves the cursor forward by at least one character; for the empty
    search string and a non-empty value no iteration moves the cursor and
    the loop never ends. *)
Theorem substituteValuePlain_loop_termination :
  (forall (searchstring replacement value : str) (fuel : nat),
     searchstring <> [] ->
     (length value <= fuel)%nat ->
     (exists r, substituteValuePlain fuel false searchstring replacement value = Ok r)
     /\ (forall st, 0 <= lastIndex st < len value ->
           lastIndex st + 1
           <= lastIndex (subst_body searchstring replacement value st)))
  /\
  (forall (replacement value : str),
     value <> [] ->
     (forall fuel, substituteValuePlain fuel false [] replacement value = Running)
     /\ (forall st, 0 <= lastIndex st < len value ->
           lastIndex (subst_body [] replacement value st) = lastIndex st)).
Proof.
  split.
  - intros searchstring replacement value fuel Hne Hfuel. split.
    + now apply substituteValuePlain_returns.
    + intros st Hst. now apply subst_body_advances.
  - intros replacement value Hne. split.
    + intros fuel. now apply substituteValuePlain_spins.
    + intros st Hst. now apply subst_body_empty_search.
Qed.

Lemma substituteValuePlain_loop_termination_witness :
  (exists r, substituteValuePlain 18 false (lit "great") (lit "GREAT")
               (lit "How Great Thou Art") = Ok r)
  /\ (forall fuel, substituteValuePlain fuel false [] (lit "x") (lit "ab") = Running).
Proof.
  destruct substituteValuePlain_loop_termination as [H1 H2]. split.
  - apply (H1 (lit "great") (lit "GREAT") (lit "How Great Thou Art") 18%nat).
    + discriminate.
    + simpl. lia.
  - apply (H2 (lit "x") (lit "ab")). discriminate.
Defined.

(** With the empty search string and the empty value the loop is not
    entered, and the call returns. *)
Lemma substituteValuePlain_empty_empty_returns :
  substituteValuePlain 0 false [] (lit "x") [] = Ok []
  /\ ~ (forall replacement value fuel,
          substituteValuePlain fuel false [] replacement value = Running).
Proof.
  split; [reflexivity|].
  intros H. specialize (H (lit "x") [] 0%nat). discriminate.
Qed.

Lemma contains_lower (sub s : str) :
  contains sub s = true -> contains (lower sub) (lower s) = true.
Proof.
  rewrite !contains_iff. intros (pre & post & ->).
  exists (lower pre), (lower post). unfold lower. now rewrite !map_app.
Qed.

Lemma contains_tail (sub : str) (c : ascii) (s : str) :
  contains sub (c :: s) = false -> contains sub s = false.
Proof.
  intros H. destruct (contains sub s) eqn:Hc; [|reflexivity].
  apply contains_iff in Hc as (pre & post & ->).
  assert (contains sub (c :: pre ++ sub ++ post) = true) as Ht
    by (apply contains_iff; now exists (c :: pre), post).
  congruence.
Qed.

Lemma contains_startswith (sub s : str) :
  contains sub s = false -> startswith sub s = false.
Proof.
  intros H. destruct (startswith sub s) eqn:Hs; [|reflexivity].
  apply startswith_app in Hs as [post ->].
  assert (contains sub (sub ++ post) = true) as Ht
    by (apply contains_iff; now exists [], post).
  congruence.
Qed.

(** [replace] leaves a string without occurrence of [old] as it is. *)
Lemma replace_absent (s old new : str) :
  old <> [] -> contains old s = false -> replace s old new = s.
Proof.
  destruct old as [|o old']; [congruence|]. intros _. unfold replace.
  induction s as [|c s IH]; intros H; simp replace_nonempty; [reflexivity|].
  rewrite (contains_startswith _ _ H). simpl.
  f_equal. apply IH. exact (contains_tail _ _ _ H).
Qed.

Lemma find_absent (s sub : str) :
  contains sub s = false -> find s sub 0 = -1.
Proof.
  unfold contains, find. intros H.
  destruct (Z.ltb_spec (len s) 0); [reflexivity|].
  unfold slice_index. simpl.
  replace (Z.to_nat (Z.max 0 (Z.min (len s) 0))) with 0%nat by lia.
  simpl. now destruct (find_at sub s 0).
Qed.

(** Where the substituter is the identity: the pattern does not occur in
    the value even when case is ignored. *)
Lemma substituteValuePlain_absent (fuel : nat) (ignorecase : bool)
  (searchstring replacement value : str) :
  searchstring <> [] ->
  (1 <= fuel)%nat ->
  contains (lower searchstring) (lower value) = false ->
  substituteValuePlain fuel ignorecase searchstring replacement value = Ok value.
Proof.
  intros Hne Hfuel Habs. unfold substituteValuePlain. destruct ignorecase.
  - f_equal. apply replace_absent; [assumption|].
    destruct (contains searchstring value) eqn:Hc; [|reflexivity].
    apply contains_lower in Hc. congruence.
  - destruct fuel as [|fuel]; [lia|]. simpl.
    unfold subst_cond at 1. simpl.
    destruct value as [|c value]; [reflexivity|].
    replace (0 <? len (c :: value)) with true
      by (symmetry; apply Z.ltb_lt; unfold len; simpl; lia).
    unfold subst_body at 2. simpl lastIndex. simpl newstr.
    rewrite (find_absent _ _ Habs). simpl (-1 <? 0).
    replace (slice_from (c :: value) 0) with (c :: value) by reflexivity. simpl app.
    assert (forall st, lastIndex st = len (c :: value) ->
              while fuel (subst_cond (c :: value))
                (subst_body searchstring replacement (c :: value)) st = Some st) as Hend.
    { intros st Hst. destruct fuel; simpl; unfold subst_cond; rewrite Hst, Z.ltb_irrefl;
        reflexivity. }
    rewrite Hend by reflexivity. reflexivity.
Qed.

(** C1 (evaluation of the code): with the case-insensitive flag set the
    plain substituter is the case-sensitive [str.replace], and leaves
    "How Great Thou Art" as it is for "great" / "GREAT". *)
Theorem substituteValuePlain_ignorecase_set :
  (forall fuel searchstring replacement value,
     substituteValuePlain fuel true searchstring replacement value
     = Ok (replace value searchstring replacement))
  /\ substituteValuePlain 0 true (lit "great") (lit "GREAT") (lit "How Great Thou Art")
     = Ok (lit "How Great Thou Art")
  /\ searchValuePlain true (lit "great") (CText (lit "How Great Thou Art")) = Ok true.
Proof.
  repeat split.
Qed.

(** C3 (evaluation of the code): with the case-insensitive flag unset the
    plain substituter replaces "Great" as well as "great", where
    [str.replace] replaces only the latter. *)
Theorem substituteValuePlain_ignorecase_unset :
  substituteValuePlain 11 false (lit "great") (lit "GREAT") (lit "Great great")
  = Ok (lit "GREAT GREAT")
  /\ replace (lit "Great great") (lit "great") (lit "GREAT") = lit "Great GREAT"
  /\ searchValuePlain false (lit "great") (CText (lit "Great great")) = Ok true.
Proof.
  repeat split.
Qed.

(** C4 (evaluation of the code): in case-sensitive mode "great" does not
    occur in "Great", yet the substituter changes the value. *)
Theorem substituteValuePlain_absent_pattern_changed :
  searchValuePlain false (lit "great") (CText (lit "Great")) = Ok false
  /\ substituteValuePlain 5 false (lit "great") (lit "GREAT") (lit "Great")
     = Ok (lit "GREAT").
Proof.
  split; reflexivity.
Qed.

(** ** The diff renderers *)

(** C2 (evaluation of the code): for search "b", replace "c" on "abab",
    whose substituted value is "acac", the plain renderer emits spans that
    spell "ababab" and "acacac": the rest of the value is appended in every
    iteration of the loop, and again after the next match. *)
Theorem printDifferencePlain_duplicates :
  substituteValuePlain 4 false (lit "b") (lit "c") (lit "abab") = Ok (lit "acac")
  /\ exists st,
       printDifferencePlain 4 false (lit "b") (lit "c") (lit "abab") (lit "acac") = Ok st
       /\ plain_text (spans (Diff.original st)) = lit "ababab"
       /\ plain_text (spans (Diff.new st)) = lit "acacac"
       /\ plain_text (spans (Diff.original st)) <> lit "abab"
       /\ plain_text (spans (Diff.new st)) <> lit "acac".
Proof.
  split; [reflexivity|]. eexists. split; [reflexivity|].
  repeat split; discriminate.
Qed.

(** A replacement of another length than the pattern also misplaces the
    rest of the new string, with a single match. *)
Example printDifferencePlain_longer_replacement :
  exists st,
    printDifferencePlain 3 false (lit "x") (lit "yy") (lit "axb") (lit "ayyb") = Ok st
    /\ plain_text (spans (Diff.original st)) = lit "axb"
    /\ plain_text (spans (Diff.new st)) = lit "ayyyybyb".
Proof.
  eexists. repeat split.
Qed.

(** [s[:i]] for [i >= 0] *)
Definition upto (s : str) (i : Z) : str := firstn (Z.to_nat i) s.

Lemma firstn_extend {A} (a b : nat) (l : list A) :
  (a <= b)%nat -> firstn a l ++ firstn (b - a) (skipn a l) = firstn b l.
Proof.
  revert b l. induction a as [|a IH]; intros b l Hab; simpl.
  - now rewrite Nat.sub_0_r.
  - destruct b as [|b]; [lia|]. destruct l as [|x l]; simpl.
    + now rewrite firstn_nil.
    + f_equal. apply IH. lia.
Qed.

Lemma firstn_clamp {A} (n : nat) (l : list A) :
  firstn n l = firstn (Nat.min n (length l)) l.
Proof.
  destruct (Nat.le_ge_cases n (length l)).
  - now rewrite Nat.min_l.
  - rewrite Nat.min_r by assumption. rewrite !firstn_all2; auto.
Qed.

Lemma slice_index_nonneg (n i : Z) :
  0 <= i -> 0 <= n -> slice_index n i = Nat.min (Z.to_nat i) (Z.to_nat n).
Proof.
  intros Hi Hn. unfold slice_index. destruct (Z.ltb_spec i 0); lia.
Qed.

Lemma upto_slice (s : str) (a b : Z) :
  0 <= a <= b -> upto s a ++ slice s a b = upto s b.
Proof.
  intros H. unfold upto, slice.
  rewrite !slice_index_nonneg by (unfold len; lia).
  unfold len. rewrite Nat2Z.id.
  rewrite (firstn_clamp (Z.to_nat a)), (firstn_clamp (Z.to_nat b)).
  apply firstn_extend. lia.
Qed.

Lemma upto_slice_from (s : str) (a : Z) :
  0 <= a -> upto s a ++ slice_from s a = s.
Proof.
  intros H. unfold upto, slice_from.
  rewrite slice_index_nonneg by (unfold len; lia).
  unfold len. rewrite Nat2Z.id.
  rewrite (firstn_clamp (Z.to_nat a)). apply firstn_skipn.
Qed.

Lemma plain_text_app (p q : list piece) :
  plain_text (p ++ q) = plain_text p ++ plain_text q.
Proof. unfold plain_text. now rewrite map_app, concat_app. Qed.

(** The spans of [finditer]: left to right, without overlap. *)
Fixpoint ordered_spans (last : Z) (matches : list (Z * Z)) : Prop :=
  match matches with
  | [] => True
  | (m_start, m_end) :: matches' =>
      last <= m_start /\ m_start <= m_end /\ ordered_spans m_end matches'
  end.

(** What the regex renderer has emitted when the cursor is at
    [lastIndex]. *)
Definition rendered_upto (value newValue : str) (st : Diff.state) : Prop :=
  exists o n,
    Diff.original st = Fail (lit "- ") :: o /\
    Diff.new st = OkGreen (lit "+ ") :: n /\
    plain_text o = upto value (Diff.lastIndex st) /\
    plain_text n = upto newValue (Diff.lastIndex st + Diff.discrepency st) /\
    0 <= Diff.lastIndex st /\
    0 <= Diff.lastIndex st + Diff.discrepency st.

Section RegexRenderer.
Context `{E : ReEngine}.

Lemma diff_regex_loop_invariant (search : regex) (replace value newValue : str)
  (matches : list (Z * Z)) :
  forall st st',
    rendered_upto value newValue st ->
    ordered_spans (Diff.lastIndex st) matches ->
    diff_regex_loop search replace value newValue matches st = Ok st' ->
    rendered_upto value newValue st'.
Proof.
  induction matches as [|[m_start m_end] matches IH]; intros st st' Hinv Hord; simpl.
  - now intros [= <-].
  - destruct Hord as (H1 & H2 & Hord).
    destruct (re_sub search replace (slice value m_start m_end)) as [r| |];
      try discriminate.
    apply IH; [|exact Hord].
    destruct Hinv as (o & n & Ho & Hn & Hto & Htn & HL & HD).
    exists (o ++ [Raw (slice value (Diff.lastIndex st) m_start);
                  Fail (slice value m_start m_end)]),
           (n ++ [Raw (slice newValue (Diff.lastIndex st + Diff.discrepency st)
                         (m_start + Diff.discrepency st));
                  OkGreen (slice newValue (m_start + Diff.discrepency st)
                             (m_start + Diff.discrepency st + len r))]).
    simpl. rewrite Ho, Hn. pose proof (len_nonneg r).
    repeat split; try lia.
    + rewrite plain_text_app, Hto. unfold plain_text. simpl. rewrite app_nil_r.
      rewrite app_assoc, !upto_slice by lia. reflexivity.
    + rewrite plain_text_app, Htn. unfold plain_text. simpl. rewrite app_nil_r.
      rewrite app_assoc, !upto_slice by lia. f_equal. lia.
Qed.

(** The regex renderer keeps the invariant of C2: when [finditer] yields
    its matches left to right without overlap, the spans of the first line
    spell the original value and those of the second line the new value,
    whatever the lengths of the substitutions. *)
Theorem printDifferenceRegex_reconstructs (search : regex)
  (replace value newValue : str) (st : Diff.state) :
  ordered_spans 0 (re_finditer search value) ->
  printDifferenceRegex search replace value newValue = Ok st ->
  plain_text (spans (Diff.original st)) = value /\
  plain_text (spans (Diff.new st)) = newValue.
Proof.
  intros Hord. unfold printDifferenceRegex.
  destruct (diff_regex_loop _ _ _ _ _ _) as [st0| |] eqn:Hloop; try discriminate.
  intros [= <-]. simpl.
  apply diff_regex_loop_invariant in Hloop; [|
    exists [], []; repeat split; simpl; lia | exact Hord].
  destruct Hloop as (o & n & -> & -> & Hto & Htn & HL & HD). simpl.
  rewrite !plain_text_app, Hto, Htn.
  change (plain_text [Raw (slice_from value (Diff.lastIndex st0))])
    with (slice_from value (Diff.lastIndex st0) ++ []).
  change (plain_text [Raw (slice_from newValue (Diff.lastIndex st0 + Diff.discrepency st0))])
    with (slice_from newValue (Diff.lastIndex st0 + Diff.discrepency st0) ++ []).
  rewrite !app_nil_r. split; apply upto_slice_from; assumption.
Qed.

(** The renderer returns when every substitution of a matched text does. *)
Lemma diff_regex_loop_returns (search : regex) (replace value newValue : str)
  (matches : list (Z * Z)) :
  (forall m, In m matches ->
     exists r, re_sub search replace (slice value (fst m) (snd m)) = Ok r) ->
  forall st, exists st',
    diff_regex_loop search replace value newValue matches st = Ok st'.
Proof.
  induction matches as [|[m_start m_end] matches IH]; intros Hsub st; simpl.
  - now eexists.
  - destruct (Hsub (m_start, m_end)) as [r Hr]; [now left|]. simpl in Hr.
    rewrite Hr. apply IH. intros m Hm. apply Hsub. now right.
Qed.

End RegexRenderer.

Lemma printDifferenceRegex_reconstructs_witness :
  exists st,
    printDifferenceRegex (lit "b") (lit "ccc") (lit "abab") (lit "acccaccc") = Ok st
    /\ plain_text (spans (Diff.original st)) = lit "abab"
    /\ plain_text (spans (Diff.new st)) = lit "acccaccc".
Proof.
  eexists. split; [reflexivity|].
  apply (@printDifferenceRegex_reconstructs literal_engine
           (lit "b") (lit "ccc") (lit "abab") (lit "acccaccc"));
    [vm_compute; repeat split; discriminate | reflexivity].
Defined.

(** ** Construction *)

Section Construction.
Context `{E : ReEngine} `{Q : Sqlite}.

(** C8: in regex mode the pattern is compiled before [runReplacement]
    starts; when [re.compile] raises, the constructor raises the same
    error and nothing has happened to the world: no table was listed, no
    cell read or written. *)
Theorem init_malformed_regex (fuel : nat) (search replace : str)
  (dryRun ignoreCase : bool) (e : exn) (w : world) :
  re_compile search ignoreCase = Raise e ->
  __init__ fuel search replace true dryRun ignoreCase w = (Raise e, w).
Proof.
  intros H. unfold __init__, bind, lift. now rewrite H.
Qed.

End Construction.

Lemma init_malformed_regex_witness :
  __init__ 0 (lit "(") (lit "x") true false false songs_world = (Raise ReError, songs_world).
Proof.
  apply (@init_malformed_regex literal_engine plain_sqlite 0 (lit "(") (lit "x") false false ReError).
  reflexivity.
Defined.

(** When the pattern compiles, the run starts by listing the tables. *)
Example init_regex_ok :
  hd_error (log (snd (__init__ 18 (lit "Great") (lit "GREAT") true true false songs_world)))
  = Some EvListTables.
Proof. reflexivity. Qed.

(** ** The scan pass *)


Lemma in_enumerate_from {A} (l : list A) (k i : nat) (x : A) :
  In (i, x) (enumerate_from k l) <->
  exists j, i = (k + j)%nat /\ nth_error l j = Some x.
Proof.
  revert k. induction l as [|y l IH]; intros k; simpl.
  - split; [tauto | intros (j & _ & H); destruct j; discriminate].
  - rewrite IH. split.
    + intros [[= <- <-] | (j & -> & Hj)].
      * exists 0%nat. split; [lia | reflexivity].
      * exists (S j). split; [lia | exact Hj].
    + intros ([|j] & -> & Hj); simpl in Hj.
      * left. injection Hj as ->. f_equal. lia.
      * right. exists j. split; [lia | exact Hj].
Qed.




Section Scan.
Context `{E : ReEngine} `{Q : Sqlite}.
Variable self : EWDatabaseRewriter.
Variable search : pattern.

(** The matcher on a string, as a truth value. *)
Definition matches_text (s : str) : bool :=
  match search with
  | PPlain p =>
      if ignorecase self then contains (lower p) (lower s) else contains p s
  | PRegex r => re_search r s
  end.

(** A cell that is a string and matches. *)
Definition cell_hit (c : cell) : bool :=
  match c with
  | CText s => matches_text s
  | _ => false
  end.

Lemma searchValue_text (s : str) :
  searchValue self search (CText s) = Ok (matches_text s).
Proof.
  unfold searchValue, matches_text. destruct search; simpl; [|reflexivity].
  now destruct (ignorecase self).
Qed.



























End Scan.





Example scan_songs :
  fst (getTablesWhereStringExists
         {| dryRun := false; replacewith := lit "GREAT"; ignorecase := true;
            input := PPlain (lit "great") |}
         (map name songs) (PPlain (lit "great")) songs_world)
  = Ok ([(lit "Songs", [lit "title"])], 1).
Proof. reflexivity. Qed.




(** ** The rewrite pass *)

(** A computation keeps a relation between the world before and after it,
    whatever its outcome. *)
Definition keeps {A} (R : world -> world -> Prop) (m : M A) : Prop :=
  forall w, R w (snd (m w)).

Section Keeps.
Variable R : world -> world -> Prop.
Hypothesis R_refl : forall w, R w w.
Hypothesis R_trans : forall a b c, R a b -> R b c -> R a c.

Lemma keeps_ret {A} (a : A) : keeps R (ret a).
Proof. intros w. apply R_refl. Qed.

Lemma keeps_lift {A} (r : result A) : keeps R (lift r).
Proof. intros w. apply R_refl. Qed.

Lemma keeps_bind {A B} (m : M A) (k : A -> M B) :
  keeps R m -> (forall a, keeps R (k a)) -> keeps R (bind m k).
Proof.
  intros Hm Hk w. unfold bind. specialize (Hm w).
  destruct (m w) as [[a|e|] w1]; simpl in *; try assumption.
  exact (R_trans _ _ _ Hm (Hk a w1)).
Qed.

Lemma keeps_for_each {A B} (body : B -> A -> M B) (l : list A) :
  (forall acc x, keeps R (body acc x)) -> forall acc, keeps R (for_each body l acc).
Proof.
  intros Hbody. induction l as [|x l IH]; intros acc; simpl.
  - apply keeps_ret.
  - apply keeps_bind; [apply Hbody | exact IH].
Qed.

Lemma keeps_for_rows `{Sqlite} {B} (body : B -> cell * cell -> M B) :
  (forall acc r, keeps R (body acc r)) ->
  forall fuel cur acc, keeps R (for_rows fuel body cur acc).
Proof.
  intros Hbody. induction fuel as [|fuel IH]; intros cur acc w; simpl;
    destruct (sql_fetch cur (txn w)) as [[[r cur']|]| |]; simpl; try apply R_refl.
  exact (keeps_bind (body acc r) (for_rows fuel body cur') (Hbody acc r)
           (fun a => IH cur' a) w).
Qed.

End Keeps.

(** Events that write to the database. *)
Definition is_write (ev : event) : bool :=
  match ev with
  | EvUpdate _ _ _ _ => true
  | EvCommit => true
  | _ => false
  end.

(** The database is as before, and nothing was written in between. *)
Definition untouched (w w' : world) : Prop :=
  file w' = file w /\ txn w' = txn w /\
  exists l, log w' = log w ++ l /\ Forall (fun ev => is_write ev = false) l.

Lemma untouched_refl (w : world) : untouched w w.
Proof.
  repeat split. exists []. now rewrite app_nil_r.
Qed.

Lemma untouched_trans (a b c : world) : untouched a b -> untouched b c -> untouched a c.
Proof.
  intros (Hf & Ht & l & Hl & Hro) (Hf' & Ht' & l' & Hl' & Hro').
  split; [congruence|]. split; [congruence|].
  exists (l ++ l'). split; [rewrite Hl', Hl; now rewrite app_assoc|].
  apply Forall_app. now split.
Qed.

Lemma untouched_emit (ev : event) : is_write ev = false -> keeps untouched (emit ev).
Proof.
  intros H w. repeat split. exists [ev]. split; [reflexivity | now constructor].
Qed.

Lemma untouched_select_column `{Sqlite} (t col : str) :
  keeps untouched (select_column t col).
Proof.
  unfold select_column.
  apply (keeps_bind untouched untouched_trans); [now apply untouched_emit|].
  intros _ w. apply untouched_refl.
Qed.

Section RewritePass.
Context `{E : ReEngine} `{Q : Sqlite}.

Ltac untouched_step :=
  first [ apply untouched_select_column
        | apply untouched_emit; reflexivity
        | apply (keeps_lift untouched untouched_refl)
        | apply (keeps_ret untouched untouched_refl)
        | apply (keeps_for_each untouched untouched_refl untouched_trans); intros ? ?
        | apply (keeps_for_rows untouched untouched_refl untouched_trans); intros ? ?
        | apply (keeps_bind untouched untouched_trans); [|intros ?]
        | match goal with
          | |- keeps _ (if ?b then _ else _) => destruct b
          | |- keeps _ (match ?c with CText _ => _ | _ => _ end) => destruct c
          end ].

(** A dry run leaves the database alone. *)
Lemma startReplacement_dry_untouched (self : EWDatabaseRewriter) (fuel : nat)
  (tables : report) (search : pattern) (replace : str) (expectedTotal : Z) :
  dryRun self = true ->
  keeps untouched (startReplacement self fuel tables search replace expectedTotal).
Proof.
  intros Hdry. unfold startReplacement, replace_table, replace_column, replace_row.
  rewrite Hdry.
  repeat untouched_step.
Qed.

End RewritePass.

(** *** What an update changes *)

Lemma index_of_nth_error (col : str) (names : list str) (i : nat) :
  index_of col names = Some i -> nth_error names i = Some col.
Proof.
  revert i. induction names as [|n names IH]; intros i; simpl; [discriminate|].
  destruct (str_eq_dec n col) as [->|Hne].
  - now intros [= <-].
  - destruct (index_of col names) as [j|]; [|discriminate].
    intros [= <-]. now apply IH.
Qed.

Lemma index_of_inj (a b : str) (names : list str) (i : nat) :
  index_of a names = Some i -> index_of b names = Some i -> a = b.
Proof.
  intros Ha Hb. apply index_of_nth_error in Ha, Hb. congruence.
Qed.

Lemma nth_set_nth_other {A} (i j : nat) (x d : A) (l : list A) :
  i <> j -> nth j (set_nth i x l) d = nth j l d.
Proof.
  revert i j. induction l as [|y l IH]; intros i j Hij; simpl; [now destruct i|].
  destruct i as [|i], j as [|j]; simpl; try reflexivity; try congruence.
  apply IH. congruence.
Qed.

Lemma find_table_cons (tb : table) (db : database) (t : str) :
  find_table (tb :: db) t = if str_eq_dec (name tb) t then Some tb else find_table db t.
Proof.
  unfold find_table. simpl. now destruct (str_eq_dec (name tb) t).
Qed.

Lemma update_db_read_other (db db' : database) (t col v : str) (id : Z) (t' col' : str) :
  update_db db t col v id = Some db' ->
  t' <> t \/ col' <> col ->
  read_column db' t' col' = read_column db t' col'.
Proof.
  revert db'. induction db as [|tb db IH]; intros db'; simpl; [discriminate|].
  destruct (str_eq_dec (name tb) t) as [Ht|Ht].
  - destruct (index_of col (columns tb)) as [i|] eqn:Hi; [|discriminate].
    intros [= <-] Hne. unfold read_column. rewrite !find_table_cons. cbn [name].
    destruct (str_eq_dec (name tb) t') as [Ht'|Ht']; [|reflexivity].
    cbn [columns rows].
    destruct (index_of col' (columns tb)) as [j|] eqn:Hj; [|reflexivity].
    f_equal. rewrite map_map. apply map_ext. intros r. unfold update_row.
    destruct (rowid r =? id); [|reflexivity]. simpl. f_equal.
    apply nth_set_nth_other. intros ->.
    destruct Hne as [Hne|Hne]; [congruence|].
    apply Hne. exact (index_of_inj _ _ _ _ Hj Hi).
  - destruct (update_db db t col v id) as [db1|]; [|discriminate].
    intros [= <-] Hne. unfold read_column. rewrite !find_table_cons.
    destruct (str_eq_dec (name tb) t'); [reflexivity|].
    exact (IH db1 eq_refl Hne).
Qed.

Lemma update_db_defined (db : database) (t col v : str) (id : Z) :
  read_column db t col <> None ->
  exists db', update_db db t col v id = Some db' /\ read_column db' t col <> None.
Proof.
  unfold read_column. induction db as [|tb db IH]; [simpl; congruence|].
  cbn [update_db]. rewrite find_table_cons.
  destruct (str_eq_dec (name tb) t) as [Ht|Ht].
  - destruct (index_of col (columns tb)) as [i|] eqn:Hi; [|congruence].
    intros _. eexists. split; [reflexivity|].
    rewrite find_table_cons. cbn [name].
    destruct (str_eq_dec (name tb) t); [|contradiction].
    cbn [columns]. rewrite Hi. discriminate.
  - intros H. destruct (IH H) as (db' & -> & Hd). eexists. split; [reflexivity|].
    rewrite find_table_cons. now destruct (str_eq_dec (name tb) t).
Qed.

(** The only column of the database that differs is column [col] of table
    [t], which is still there. *)
Definition touches (t col : str) (w w' : world) : Prop :=
  (read_column (txn w) t col <> None -> read_column (txn w') t col <> None) /\
  forall t' col', t' <> t \/ col' <> col ->
    read_column (txn w') t' col' = read_column (txn w) t' col'.

Lemma touches_same (t col : str) (w w' : world) :
  txn w' = txn w -> touches t col w w'.
Proof. intros H. unfold touches. rewrite H. auto. Qed.

Lemma touches_refl (t col : str) (w : world) : touches t col w w.
Proof. now apply touches_same. Qed.

Lemma touches_trans (t col : str) (a b c : world) :
  touches t col a b -> touches t col b c -> touches t col a c.
Proof.
  intros [Hd Ho] [Hd' Ho']. split; [auto|].
  intros t' col' Hne. now rewrite Ho', Ho.
Qed.
Lemma touches_txn (t col : str) (a a' b b' : world) :
  txn a' = txn a -> txn b' = txn b -> touches t col a b -> touches t col a' b'.
Proof. unfold touches. intros -> ->. auto. Qed.

(** *** What the pass asks of SQLite *)

(** A row of a column as its select gives it: the rowid, then the cell. *)
Definition as_row (r : Z * cell) : cell * cell := (CInt (fst r), snd r).

Section Served.
Context `{Q : Sqlite}.

(** The cursor [cur], read on the content [db], yields the rows [rest] one
    by one and then ends; and where the string cell of the row it has just
    yielded is updated, it goes on from the new content in the same way:
    the update does not bring a row back, move one or drop one. *)
Fixpoint follows (t col : str) (cur : cursor) (db : database) (rest : list (Z * cell))
  : Prop :=
  match rest with
  | [] => sql_fetch cur db = Ok None
  | r :: rest' =>
      exists cur',
        sql_fetch cur db = Ok (Some (as_row r, cur')) /\
        follows t col cur' db rest' /\
        (is_text (snd r) = true ->
         forall v db',
           sql_update db t col v (CInt (fst r)) = Ok db' -> follows t col cur' db' rest')
  end.

(** The select of column [col] of table [t] is served in the order of the
    rows: whatever the content, it opens a cursor that follows the rows of
    the column.  So it is for a column without index, whose table SQLite
    walks by rowid, and with names it reads as they stand. *)
Definition scans_in_order (t col : str) : Prop :=
  forall db result,
    read_column db t col = Some result -> NoDup (map fst result) ->
    exists cur, sql_select_column db t col = Ok cur /\ follows t col cur db result.

(** An update of column [col] of table [t] stores the string, as it is, in
    the row of the rowid: no constraint refuses it and no affinity of the
    column converts it. *)
Definition stores_text (t col : str) : Prop :=
  forall db v id db',
    update_db db t col v id = Some db' -> sql_update db t col v (CInt id) = Ok db'.

Definition served (t col : str) : Prop := scans_in_order t col /\ stores_text t col.

(** Under a cursor that follows the rows, the loop over the cursor is the
    loop over the rows, for a body that writes nothing but an update of the
    string cell of its row. *)
Lemma for_rows_follows {B} (t col : str) (body : B -> cell * cell -> M B) :
  (forall acc r w,
     txn (snd (body acc (as_row r) w)) = txn w \/
     (is_text (snd r) = true /\
      exists v, sql_update (txn w) t col v (CInt (fst r))
                = Ok (txn (snd (body acc (as_row r) w))))) ->
  forall rest fuel cur acc w,
    (length rest <= fuel)%nat ->
    follows t col cur (txn w) rest ->
    for_rows fuel body cur acc w = for_each (fun a r => body a (as_row r)) rest acc w.
Proof.
  intros Hbody. induction rest as [|r rest IH]; intros fuel cur acc w Hfuel Hfol.
  - simpl in Hfol. destruct fuel; simpl; rewrite Hfol; reflexivity.
  - destruct Hfol as (cur' & Hfetch & Hsame & Hupd).
    destruct fuel as [|fuel]; [simpl in Hfuel; lia|].
    simpl. rewrite Hfetch. unfold bind.
    pose proof (Hbody acc r w) as Hw.
    destruct (body acc (as_row r) w) as [[a|e|] w1]; try reflexivity.
    simpl in Hw. apply IH; [simpl in Hfuel; lia|].
    destruct Hw as [-> | (Htext & v & Hu)]; [exact Hsame | exact (Hupd Htext v _ Hu)].
Qed.

End Served.

Lemma for_each_keeps_on {A B} (P : world -> Prop) (R : world -> world -> Prop)
  (body : B -> A -> M B) :
  (forall w, R w w) ->
  (forall a b c, R a b -> R b c -> R a c) ->
  (forall acc x w, P w -> R w (snd (body acc x w)) /\ P (snd (body acc x w))) ->
  forall l acc w, P w ->
    R w (snd (for_each body l acc w)) /\ P (snd (for_each body l acc w)).
Proof.
  intros Hrefl Htrans Hbody. induction l as [|x l IH]; intros acc w HP; simpl.
  - split; [apply Hrefl | exact HP].
  - unfold bind. destruct (Hbody acc x w HP) as [HR HP'].
    destruct (body acc x w) as [[a|e|] w1]; simpl in *; try (split; assumption).
    destruct (IH a w1 HP') as [HR' HP'']. split; [|exact HP''].
    exact (Htrans _ _ _ HR HR').
Qed.

(** *** The loops over tables and columns as one loop over pairs *)

Lemma for_each_app {A B} (body : B -> A -> M B) (l1 l2 : list A) (acc : B) (w : world) :
  for_each body (l1 ++ l2) acc w = bind (for_each body l1 acc) (for_each body l2) w.
Proof.
  revert acc w. induction l1 as [|x l1 IH]; intros acc w; simpl; [reflexivity|].
  unfold bind at 1 2 3. destruct (body acc x w) as [[a|e|] w1]; [|reflexivity|reflexivity].
  rewrite IH. reflexivity.
Qed.

Lemma for_each_map {A B C} (body : B -> A -> M B) (f : C -> A) (l : list C)
  (acc : B) (w : world) :
  for_each body (map f l) acc w = for_each (fun a x => body a (f x)) l acc w.
Proof.
  revert acc w. induction l as [|x l IH]; intros acc w; simpl; [reflexivity|].
  unfold bind. destruct (body acc (f x) w) as [[a|e|] w1]; auto.
Qed.

Lemma for_each_ok_inv {A B} (body : B -> A -> M B) (l : list A) :
  forall acc w acc' w',
    for_each body l acc w = (Ok acc', w') ->
    forall x, In x l -> exists a1 w1 a2 w2, body a1 x w1 = (Ok a2, w2).
Proof.
  induction l as [|y l IH]; intros acc w acc' w' Hrun x Hin; [destruct Hin|].
  simpl in Hrun. unfold bind in Hrun.
  destruct (body acc y w) as [[a|e|] w1] eqn:Hb; try discriminate.
  destruct Hin as [->|Hin]; [now exists acc, w, a, w1|].
  exact (IH _ _ _ _ Hrun x Hin).
Qed.

(** The (table, column) pairs of a report, in the order of the pass. *)
Definition pairs (tables : list (str * list str)) : list (str * str) :=
  flat_map (fun entry => map (pair (fst entry)) (snd entry)) tables.

(** The changes a log tells of: cell and new value, for an update or for
    a printed difference. *)
Definition changes (l : list event) : list (str * str * cell * str) :=
  flat_map (fun ev =>
              match ev with
              | EvUpdate t col v id => [(t, col, id, v)]
              | EvDiff t col id _ v _ => [(t, col, id, v)]
              | _ => []
              end) l.

Lemma changes_app (l1 l2 : list event) : changes (l1 ++ l2) = changes l1 ++ changes l2.
Proof. apply flat_map_app. Qed.




Definition logged (w : world) (ev : event) : world :=
  {| file := file w; txn := txn w; log := log w ++ [ev] |}.

Section RewriteSim.
Context `{E : ReEngine} `{Q : Sqlite}.
Variable self : EWDatabaseRewriter.
Variable fuel : nat.
Variable search : pattern.
Variable replace : str.
Variable expectedTotal : Z.

(** The rewriter with the [dryRun] flag set or cleared. *)
Definition with_dryRun (b : bool) : EWDatabaseRewriter :=
  {| dryRun := b; replacewith := replacewith self;
     ignorecase := ignorecase self; input := input self |}.

Definition column_step (s : EWDatabaseRewriter) (replaced_count : Z) (p : str * str)
  : M Z :=
  replace_column s fuel search replace expectedTotal (fst p) replaced_count (snd p).

Lemma tables_loop_pairs (s : EWDatabaseRewriter) (tables : report) (n : Z) (w : world) :
  for_each (replace_table s fuel search replace expectedTotal) tables n w
  = for_each (column_step s) (pairs tables) n w.
Proof.
  revert n w. induction tables as [|[t cols] tables IH]; intros n w; [reflexivity|].
  cbn [pairs flat_map fst snd]. rewrite for_each_app. simpl.
  unfold bind. unfold replace_table at 1. cbn [fst snd].
  rewrite for_each_map. unfold column_step at 1. cbn [fst snd].
  match goal with |- context [for_each ?f cols n w] =>
    destruct (for_each f cols n w) as [[a|e|] w1] end; auto.
Qed.

Lemma startReplacement_unfold (s : EWDatabaseRewriter) (tables : report) (w : world) :
  startReplacement s fuel tables search replace expectedTotal w
  = match for_each (column_step s) (pairs tables) 0 w with
    | (Ok n, w1) => (Ok n, logged w1 (EvSummary n tables))
    | (Raise e, w1) => (Raise e, w1)
    | (Running, w1) => (Running, w1)
    end.
Proof.
  unfold startReplacement. unfold bind at 1. rewrite tables_loop_pairs.
  now destruct (for_each (column_step s) (pairs tables) 0 w) as [[n|e|] w1].
Qed.

Lemma replace_column_unfold (s : EWDatabaseRewriter) (t col : str) (n : Z) (w : world) :
  replace_column s fuel search replace expectedTotal t n col w
  = match sql_select_column (txn w) t col with
    | Ok cur =>
        match for_rows fuel (replace_row s fuel search replace expectedTotal t col)
                cur n (logged w (EvSelectColumn t col)) with
        | (Ok n1, w1) =>
            if dryRun s then (Ok n1, w1)
            else (Ok n1, {| file := txn w1; txn := txn w1; log := log w1 ++ [EvCommit] |})
        | (Raise e, w1) => (Raise e, w1)
        | (Running, w1) => (Running, w1)
        end
    | Raise e => (Raise e, logged w (EvSelectColumn t col))
    | Running => (Running, logged w (EvSelectColumn t col))
    end.
Proof.
  unfold replace_column, select_column, bind, emit, logged. simpl.
  destruct (sql_select_column (txn w) t col) as [cur| |]; try reflexivity.
  destruct (for_rows _ _ cur n _) as [[n1|e|] w1]; try reflexivity.
  now destruct (dryRun s).
Qed.

Lemma searchValue_ok_text (s : EWDatabaseRewriter) (c : cell) (b : bool) :
  searchValue s search c = Ok b -> is_text c = true.
Proof.
  unfold searchValue, searchValuePlain, searchValueRegex.
  destruct search; [destruct (ignorecase s)|]; destruct c; simpl; congruence.
Qed.

(** The body of the loop returns only on a row whose cell is a string. *)
Lemma replace_row_ok_text (s : EWDatabaseRewriter) (t col : str) (n n' : Z)
  (r : cell * cell) (w w' : world) :
  replace_row s fuel search replace expectedTotal t col n r w = (Ok n', w') ->
  is_text (snd r) = true.
Proof.
  unfold replace_row, bind, lift.
  destruct (searchValue s search (snd r)) as [b| |] eqn:Hs; try discriminate.
  intros _. exact (searchValue_ok_text _ _ _ Hs).
Qed.

(** *** The loop over a cursor that follows the rows of the column *)

(** The rows of a column have distinct rowids, as SQLite has them, and are
    no more than the iteration budget. *)
Definition in_reach (result : list (Z * cell)) : Prop :=
  NoDup (map fst result) /\ (length result <= fuel)%nat.

(** Every column of the pairs [ps] is a column of the database, with its
    rows in reach. *)
Definition within_reach (db : database) (ps : list (str * str)) : Prop :=
  forall t col, In (t, col) ps ->
    exists result, read_column db t col = Some result /\ in_reach result.

(** The body of the loop on a row of the column. *)
Definition row_step (s : EWDatabaseRewriter) (t col : str) (n : Z) (r : Z * cell) : M Z :=
  replace_row s fuel search replace expectedTotal t col n (as_row r).

Lemma row_step_writes (s : EWDatabaseRewriter) (t col : str) (n : Z) (r : Z * cell)
  (w : world) :
  txn (snd (row_step s t col n r w)) = txn w \/
  (is_text (snd r) = true /\
   exists v, sql_update (txn w) t col v (CInt (fst r))
             = Ok (txn (snd (row_step s t col n r w)))).
Proof.
  unfold row_step, replace_row, bind, lift. destruct r as [id c]. cbn [as_row fst snd].
  destruct (searchValue s search c) as [[|]| |] eqn:Hs; try (now left).
  destruct (substituteValue s fuel search replace c) as [v'| |]; try (now left).
  destruct (dryRun s).
  - destruct c; try (now left).
    destruct (printDifference s fuel search replace s0 v'); now left.
  - unfold update.
    destruct (sql_update (txn w) t col v' (CInt id)) as [db'| |] eqn:Hu; try (now left).
    right. split; [exact (searchValue_ok_text _ _ _ Hs)|]. exists v'. rewrite Hu.
    destruct (n mod 20 =? 0); [destruct (expectedTotal =? 0)|]; reflexivity.
Qed.

Lemma replace_column_rows (s : EWDatabaseRewriter) (t col : str) (n : Z) (w : world)
  (result : list (Z * cell)) :
  scans_in_order t col ->
  read_column (txn w) t col = Some result ->
  in_reach result ->
  replace_column s fuel search replace expectedTotal t n col w
  = match for_each (row_step s t col) result n (logged w (EvSelectColumn t col)) with
    | (Ok n1, w1) =>
        if dryRun s then (Ok n1, w1)
        else (Ok n1, {| file := txn w1; txn := txn w1; log := log w1 ++ [EvCommit] |})
    | (Raise e, w1) => (Raise e, w1)
    | (Running, w1) => (Running, w1)
    end.
Proof.
  intros Hscan Hread [Hnd Hlen]. rewrite replace_column_unfold.
  destruct (Hscan _ _ Hread Hnd) as (cur & -> & Hfol).
  rewrite (for_rows_follows t col (replace_row s fuel search replace expectedTotal t col)
             (row_step_writes s t col) result fuel cur n
             (logged w (EvSelectColumn t col)) Hlen Hfol).
  reflexivity.
Qed.

(** *** What a column pass changes *)

Lemma row_step_touches (s : EWDatabaseRewriter) (t col : str) (n : Z) (r : Z * cell)
  (w : world) :
  stores_text t col ->
  read_column (txn w) t col <> None ->
  touches t col w (snd (row_step s t col n r w)).
Proof.
  intros Hst Hdef. unfold row_step, replace_row, bind, lift. destruct r as [id c].
  cbn [as_row fst snd].
  destruct (searchValue s search c) as [[|]| |]; try apply touches_refl.
  destruct (substituteValue s fuel search replace c) as [v'| |]; try apply touches_refl.
  destruct (dryRun s).
  - destruct c; try apply touches_refl.
    destruct (printDifference s fuel search replace s0 v'); try apply touches_refl.
    now apply touches_same.
  - destruct (update_db_defined (txn w) t col v' id Hdef) as (db' & Hu & Hd').
    unfold update. rewrite (Hst _ _ _ _ Hu).
    assert (forall w', txn w' = db' -> touches t col w w') as Hto.
    { intros w' Hw'. split; rewrite Hw'.
      - intros _. exact Hd'.
      - intros t' col' Hne. exact (update_db_read_other _ _ _ _ _ _ _ _ Hu Hne). }
    destruct (n mod 20 =? 0); [destruct (expectedTotal =? 0)|]; apply Hto; reflexivity.
Qed.

Lemma rows_touches (s : EWDatabaseRewriter) (t col : str) (result : list (Z * cell))
  (n : Z) (w : world) :
  stores_text t col ->
  read_column (txn w) t col <> None ->
  touches t col w (snd (for_each (row_step s t col) result n w)).
Proof.
  intros Hst Hdef.
  apply (for_each_keeps_on (fun w => read_column (txn w) t col <> None) (touches t col));
    [apply touches_refl | apply touches_trans | | exact Hdef].
  intros acc x w0 Hd. pose proof (row_step_touches s t col acc x w0 Hst Hd) as Ht.
  split; [exact Ht | exact (proj1 Ht Hd)].
Qed.

(** In either mode, the pass over a column changes no other column. *)
Lemma replace_column_touches (s : EWDatabaseRewriter) (t col : str) (n : Z) (w : world)
  (result : list (Z * cell)) :
  served t col ->
  read_column (txn w) t col = Some result ->
  in_reach result ->
  touches t col w (snd (replace_column s fuel search replace expectedTotal t n col w)).
Proof.
  intros [Hsc Hst] Hread Hreach. rewrite (replace_column_rows s t col n w result Hsc Hread Hreach).
  pose proof (rows_touches s t col result n (logged w (EvSelectColumn t col)) Hst
                ltac:(simpl; congruence)) as Ht.
  destruct (for_each _ result n _) as [[n1|e|] w1]; cbn [snd] in *;
    [destruct (dryRun s); cbn [snd]| |];
    (eapply touches_txn; [| |exact Ht]); reflexivity.
Qed.

Lemma replace_column_ok_text (s : EWDatabaseRewriter) (t col : str) (n n' : Z)
  (w w' : world) (result : list (Z * cell)) :
  scans_in_order t col ->
  read_column (txn w) t col = Some result ->
  in_reach result ->
  replace_column s fuel search replace expectedTotal t n col w = (Ok n', w') ->
  forall r, In r result -> is_text (snd r) = true.
Proof.
  intros Hsc Hread Hreach. rewrite (replace_column_rows s t col n w result Hsc Hread Hreach).
  destruct (for_each _ result n _) as [[n1|e|] w1] eqn:Hrows; try discriminate.
  intros _ r Hin.
  destruct (for_each_ok_inv _ _ _ _ _ _ Hrows r Hin) as (a1 & w2 & a2 & w3 & Hb).
  exact (replace_row_ok_text _ _ _ _ _ (as_row r) _ _ Hb).
Qed.

Lemma pair_neq (t col t' col' : str) :
  (t', col') <> (t, col) -> t' <> t \/ col' <> col.
Proof.
  intros H. destruct (str_eq_dec t' t) as [->|]; [|now left].
  right. intros ->. now apply H.
Qed.

(** After the pass over one column, the other columns of the pairs are as
    they were. *)
Lemma column_step_others (s : EWDatabaseRewriter) (t col : str) (ps : list (str * str))
  (n : Z) (w : world) :
  ~ In (t, col) ps ->
  served t col ->
  within_reach (txn w) ((t, col) :: ps) ->
  forall t' col', In (t', col') ps ->
    read_column (txn (snd (column_step s n (t, col) w))) t' col'
    = read_column (txn w) t' col'.
Proof.
  intros Hnotin Hserved Hreach t' col' Hin.
  destruct (Hreach t col (or_introl eq_refl)) as (result & Hread & Hres).
  destruct (replace_column_touches s t col n w result Hserved Hread Hres) as [_ Hother].
  apply Hother, pair_neq. intros [= -> ->]. contradiction.
Qed.

Lemma within_reach_tail (s : EWDatabaseRewriter) (t col : str) (ps : list (str * str))
  (n : Z) (w : world) :
  ~ In (t, col) ps ->
  served t col ->
  within_reach (txn w) ((t, col) :: ps) ->
  within_reach (txn (snd (column_step s n (t, col) w))) ps.
Proof.
  intros Hnotin Hserved Hreach t' col' Hin.
  rewrite (column_step_others s t col ps n w Hnotin Hserved Hreach t' col' Hin).
  apply Hreach. now right.
Qed.

(** A pass that returns has found a string in every cell it visited:
    every cell of every flagged column, as it was before the pass. *)
Lemma pairs_loop_ok_text (s : EWDatabaseRewriter) (ps : list (str * str)) :
  NoDup ps ->
  (forall t col, In (t, col) ps -> served t col) ->
  forall n w n' w',
    within_reach (txn w) ps ->
    for_each (column_step s) ps n w = (Ok n', w') ->
    forall t col, In (t, col) ps ->
    exists result,
      read_column (txn w) t col = Some result /\
      forall r, In r result -> is_text (snd r) = true.
Proof.
  induction ps as [|[t0 col0] ps IH]; intros Hnd Hserved n w n' w' Hreach Hrun t col Hin;
    [destruct Hin|].
  inversion Hnd as [|? ? Hnotin Hnd']; subst.
  simpl in Hrun. unfold bind in Hrun.
  pose proof (column_step_others s t0 col0 ps n w Hnotin
                (Hserved _ _ (or_introl eq_refl)) Hreach) as Hothers.
  pose proof (within_reach_tail s t0 col0 ps n w Hnotin
                (Hserved _ _ (or_introl eq_refl)) Hreach) as Htail.
  destruct (column_step s n (t0, col0) w) as [[n1|e|] w1] eqn:Hstep; try discriminate.
  cbn [snd] in *.
  destruct Hin as [[= -> ->]|Hin].
  - destruct (Hreach t col (or_introl eq_refl)) as (result & Hread & Hres).
    exists result. split; [exact Hread|].
    exact (replace_column_ok_text s t col n n1 w w1 result
             (proj1 (Hserved _ _ (or_introl eq_refl))) Hread Hres Hstep).
  - destruct (IH Hnd' (fun t c H => Hserved t c (or_intror H)) _ _ _ _ Htail Hrun t col Hin)
      as (result & Hread & Htext).
    exists result. split; [|exact Htext]. rewrite <- Hread. symmetry. now apply Hothers.
Qed.

(** *** A dry run and a real run side by side *)

Definition dry : EWDatabaseRewriter := with_dryRun true.








(** *** Termination of the pass in plain mode *)

Lemma diff_body_advances (ic : bool) (p rep value newValue : str) (st : Diff.state) :
  p <> [] ->
  0 <= Diff.lastIndex st < len value ->
  Diff.lastIndex st + 1 <= Diff.lastIndex (diff_body ic p rep value newValue st).
Proof.
  intros Hne Hst. unfold diff_body. pose proof (len_pos _ Hne) as Hp.
  set (index := if ic then find (lower value) (lower p) (Diff.lastIndex st)
                else find value p (Diff.lastIndex st)).
  assert (index = -1 \/ (Diff.lastIndex st <= index)) as Hidx.
  { unfold index. destruct ic.
    - destruct (find_bounds (lower value) (lower p) (Diff.lastIndex st)); [lia| |]; lia.
    - destruct (find_bounds value p (Diff.lastIndex st)); [lia| |]; lia. }
  destruct (Z.ltb_spec index 0); simpl; lia.
Qed.

Lemma printDifferencePlain_returns (ic : bool) (p rep value newValue : str) :
  p <> [] ->
  (length value <= fuel)%nat ->
  exists st, printDifferencePlain fuel ic p rep value newValue = Ok st.
Proof.
  intros Hne Hfuel. unfold printDifferencePlain.
  destruct (while_measure (diff_cond value) (diff_body ic p rep value newValue)
              (fun st => 0 <= Diff.lastIndex st)
              (fun st => Z.to_nat (len value - Diff.lastIndex st)))
    with (fuel := fuel) (st := Diff.init) as (st' & -> & _).
  - intros st HI Hc. unfold diff_cond in Hc. apply Z.ltb_lt in Hc.
    pose proof (diff_body_advances ic p rep value newValue st Hne). lia.
  - simpl. lia.
  - simpl. unfold len. lia.
  - now eexists.
Qed.

Lemma substituteValuePlain_any_returns (ic : bool) (p rep value : str) :
  p <> [] ->
  (length value <= fuel)%nat ->
  exists r, substituteValuePlain fuel ic p rep value = Ok r.
Proof.
  intros Hne Hfuel. destruct ic.
  - now eexists.
  - now apply substituteValuePlain_returns.
Qed.

(** An outcome that is a value or the error of the plain matcher on a
    cell that is not a string: [TypeError], or [AttributeError] where case
    is ignored.  Not an endless loop, and no other error. *)
Definition clean {A} (ic : bool) (r : result A) : Prop :=
  match r with
  | Ok _ => True
  | Raise e => e = TypeError \/ (ic = true /\ e = AttributeError)
  | Running => False
  end.

Lemma for_each_clean {A B} (ic : bool) (body : B -> A -> M B) (P : world -> Prop)
  (l : list A) :
  (forall x, In x l -> forall acc w, P w ->
     clean ic (fst (body acc x w)) /\ P (snd (body acc x w))) ->
  forall acc w, P w -> clean ic (fst (for_each body l acc w)).
Proof.
  induction l as [|x l IH]; intros Hbody acc w HP; simpl; [exact I|].
  unfold bind. destruct (Hbody x (or_introl eq_refl) acc w HP) as [Hc HP'].
  destruct (body acc x w) as [[a|e|] w1]; simpl in *; try assumption.
  apply IH; [|exact HP']. intros y Hy. apply Hbody. now right.
Qed.


(** The strings of a column are no longer than the iteration budget. *)
Definition short_texts (result : list (Z * cell)) : Prop :=
  forall r v, In r result -> snd r = CText v -> (length v <= fuel)%nat.

Lemma row_step_plain_clean (s : EWDatabaseRewriter) (p : str) (t col : str)
  (n : Z) (r : Z * cell) (w : world) :
  search = PPlain p -> p <> [] ->
  expectedTotal <> 0 ->
  stores_text t col ->
  read_column (txn w) t col <> None ->
  (forall v, snd r = CText v -> (length v <= fuel)%nat) ->
  clean (ignorecase s) (fst (row_step s t col n r w)).
Proof.
  intros Hs Hne Htot Hst Hdef Hshort. unfold row_step, replace_row, bind, lift.
  rewrite Hs. destruct r as [id c]. cbn [as_row fst snd] in *.
  destruct c as [| | |v|];
    try solve [unfold searchValue, searchValuePlain; destruct (ignorecase s); simpl; auto].
  rewrite searchValue_text.
  destruct (matches_text s (PPlain p) v); [|exact I].
  unfold substituteValue, printDifference.
  destruct (substituteValuePlain_any_returns (ignorecase s) p replace v Hne (Hshort v eq_refl))
    as [v' ->].
  destruct (dryRun s).
  - destruct (printDifferencePlain_returns (ignorecase s) p replace v v' Hne (Hshort v eq_refl))
      as [d ->]. exact I.
  - destruct (update_db_defined (txn w) t col v' id Hdef) as (db' & Hu & _).
    unfold update. rewrite (Hst _ _ _ _ Hu).
    destruct (n mod 20 =? 0); [|exact I].
    destruct (Z.eqb_spec expectedTotal 0); [contradiction | exact I].
Qed.

Lemma replace_column_plain_clean (s : EWDatabaseRewriter) (p : str) (t col : str)
  (n : Z) (w : world) (result : list (Z * cell)) :
  search = PPlain p -> p <> [] ->
  expectedTotal <> 0 ->
  served t col ->
  read_column (txn w) t col = Some result ->
  in_reach result ->
  short_texts result ->
  clean (ignorecase s)
    (fst (replace_column s fuel search replace expectedTotal t n col w)).
Proof.
  intros Hs Hne Htot [Hsc Hst] Hread Hreach Hshort.
  rewrite (replace_column_rows s t col n w result Hsc Hread Hreach).
  pose proof (for_each_clean (ignorecase s) (row_step s t col)
                (fun w' => read_column (txn w') t col <> None) result) as Hloop.
  specialize (Hloop (fun r Hin acc w' Hdef =>
    conj (row_step_plain_clean s p t col acc r w' Hs Hne Htot Hst Hdef
            (fun v Hv => Hshort r v Hin Hv))
         (proj1 (row_step_touches s t col acc r w' Hst Hdef) Hdef))
    n (logged w (EvSelectColumn t col))).
  destruct (for_each _ result n _) as [[n1|e|] w1]; simpl in *;
    [now destruct (dryRun s) | |]; apply Hloop; congruence.
Qed.

Lemma pairs_loop_plain_clean (s : EWDatabaseRewriter) (p : str) (ps : list (str * str)) :
  search = PPlain p -> p <> [] ->
  expectedTotal <> 0 ->
  NoDup ps ->
  (forall t col, In (t, col) ps -> served t col) ->
  forall n w,
    (forall t col, In (t, col) ps ->
       exists result,
         read_column (txn w) t col = Some result /\ in_reach result /\ short_texts result) ->
    clean (ignorecase s) (fst (for_each (column_step s) ps n w)).
Proof.
  intros Hs Hne Htot. induction ps as [|[t col] ps IH]; intros Hnd Hserved n w Hshort; simpl;
    [exact I|].
  apply NoDup_cons_iff in Hnd as [Hnotin Hnd'].
  pose proof (Hserved t col (or_introl eq_refl)) as Hs0.
  assert (within_reach (txn w) ((t, col) :: ps)) as Hreach.
  { intros t' col' Hin. destruct (Hshort t' col' Hin) as (result & Hr & Hres & _).
    now exists result. }
  pose proof (column_step_others s t col ps n w Hnotin Hs0 Hreach) as Hothers.
  unfold bind, column_step at 1. cbn [fst snd].
  unfold column_step at 1 in Hothers. cbn [fst snd] in Hothers.
  destruct (Hshort t col (or_introl eq_refl)) as (result & Hread & Hres & Hsh).
  pose proof (replace_column_plain_clean s p t col n w result Hs Hne Htot Hs0 Hread Hres Hsh)
    as Hcol.
  destruct (replace_column s fuel search replace expectedTotal t n col w)
    as [[n1|e|] w1]; simpl in *; try assumption.
  apply IH; [exact Hnd' | intros t' c' H'; apply Hserved; now right |].
  intros t' col' Hin. rewrite (Hothers t' col' Hin). apply Hshort. now right.
Qed.

(** Every cell of the column is a string no longer than the budget. *)
Definition all_short_texts (result : list (Z * cell)) : Prop :=
  forall r, In r result -> exists v, snd r = CText v /\ (length v <= fuel)%nat.





(** C9, as amended: the rewrite pass has no guard on the type of a cell.
    The plain matcher raises on every cell that is not a string: a
    [TypeError], or, where case is ignored, an [AttributeError] for a null
    or numeric cell, which has no [lower]; the scan pass steps over such a
    cell.  The body of the loop of the rewrite pass returns only on a
    string, so a pass that returns has found a string in every cell of
    every flagged column; and in plain mode, for a non-empty search string,
    a flagged column with a cell that is not a string makes the pass raise
    that error.  The two statements about whole columns are for columns
    that SQLite serves row by row and updates as asked. *)
Theorem startReplacement_unguarded (s : EWDatabaseRewriter) (tables : report) (w : world) :
  (forall searchstring c, is_text c = false ->
     searchValuePlain false searchstring c = Raise TypeError /\
     searchValuePlain true searchstring c
     = Raise (match c with CBlob _ => TypeError | _ => AttributeError end))
  /\
  (forall t names acc i c, is_text c = false ->
     scan_cell s search t names acc (i, c) = Ok acc)
  /\
  (forall t col n r w0 n' w',
     replace_row s fuel search replace expectedTotal t col n r w0 = (Ok n', w') ->
     is_text (snd r) = true)
  /\
  (NoDup (pairs tables) ->
   (forall t col, In (t, col) (pairs tables) -> served t col) ->
   within_reach (txn w) (pairs tables) ->
   forall n w',
     startReplacement s fuel tables search replace expectedTotal w = (Ok n, w') ->
     forall t col, In (t, col) (pairs tables) ->
     exists result,
       read_column (txn w) t col = Some result /\
       forall r, In r result -> is_text (snd r) = true)
  /\
  (forall p,
     search = PPlain p -> p <> [] ->
     expectedTotal <> 0 ->
     NoDup (pairs tables) ->
     (forall t col, In (t, col) (pairs tables) -> served t col) ->
     (forall t col, In (t, col) (pairs tables) ->
        exists result,
          read_column (txn w) t col = Some result /\ in_reach result /\
          short_texts result) ->
     (exists t col result r,
        In (t, col) (pairs tables) /\ read_column (txn w) t col = Some result /\
        In r result /\ is_text (snd r) = false) ->
     fst (startReplacement s fuel tables search replace expectedTotal w) = Raise TypeError \/
     (ignorecase s = true /\
      fst (startReplacement s fuel tables search replace expectedTotal w)
      = Raise AttributeError)).
Proof.
  assert (NoDup (pairs tables) ->
          (forall t col, In (t, col) (pairs tables) -> served t col) ->
          within_reach (txn w) (pairs tables) ->
          forall n w',
            startReplacement s fuel tables search replace expectedTotal w = (Ok n, w') ->
            forall t col, In (t, col) (pairs tables) ->
            exists result,
              read_column (txn w) t col = Some result /\
              forall r, In r result -> is_text (snd r) = true) as Htext.
  { intros Hnd Hserved Hreach n w'. rewrite startReplacement_unfold.
    destruct (for_each (column_step s) (pairs tables) 0 w) as [[n1|e|] w1] eqn:Hloop;
      try discriminate.
    intros _. exact (pairs_loop_ok_text s (pairs tables) Hnd Hserved _ _ _ _ Hreach Hloop). }
  split; [|split; [|split; [|split]]].
  - intros searchstring c Hc. destruct c; try discriminate; split; reflexivity.
  - intros t names [rep k] i c Hc. unfold scan_cell. destruct c; try reflexivity.
    discriminate.
  - intros t col n r w0 n' w'. apply replace_row_ok_text.
  - exact Htext.
  - intros p Hs Hne Htot Hnd Hserved Hshort (t & col & result & r & Hin & Hread & Hr & Hnt).
    pose proof (pairs_loop_plain_clean s p (pairs tables) Hs Hne Htot Hnd Hserved 0 w Hshort)
      as Hclean.
    assert (within_reach (txn w) (pairs tables)) as Hreach.
    { intros t' col' Hin'. destruct (Hshort t' col' Hin') as (res & Hr' & Hres & _).
      now exists res. }
    specialize (Htext Hnd Hserved Hreach). rewrite startReplacement_unfold in *.
    destruct (for_each (column_step s) (pairs tables) 0 w) as [[n1|e|] w1]; simpl in *.
    + exfalso. destruct (Htext _ _ eq_refl t col Hin) as (result' & Hread' & Hall).
      rewrite Hread in Hread'. injection Hread' as <-.
      rewrite (Hall r Hr) in Hnt. discriminate.
    + destruct Hclean as [-> | [Hic ->]]; auto.
    + contradiction.
Qed.

End RewriteSim.

(** *** The column after an update *)

Lemma nth_set_nth_same {A} (i : nat) (x d : A) (l : list A) :
  (i < length l)%nat -> nth i (set_nth i x l) d = x.
Proof.
  revert i. induction l as [|y l IH]; intros i Hi; simpl in Hi; [lia|].
  destruct i as [|i]; simpl; [reflexivity|]. apply IH. lia.
Qed.

Lemma nth_text_in_range (i : nat) (cs : list cell) :
  is_text (nth i cs CNull) = true -> (i < length cs)%nat.
Proof.
  intros H. destruct (Nat.lt_ge_cases i (length cs)) as [Hlt|Hge]; [exact Hlt|].
  rewrite nth_overflow in H by exact Hge. discriminate.
Qed.

(** The rows of a column after [update t set col = v where rowid = id]. *)
Definition updated_rows (v : str) (id : Z) (result : list (Z * cell)) : list (Z * cell) :=
  map (fun r => if fst r =? id then (fst r, CText v) else r) result.

Lemma update_db_read_same (db db' : database) (t col v : str) (id : Z)
  (result : list (Z * cell)) :
  read_column db t col = Some result ->
  (forall r, In r result -> fst r = id -> is_text (snd r) = true) ->
  update_db db t col v id = Some db' ->
  read_column db' t col = Some (updated_rows v id result).
Proof.
  revert db'. unfold read_column. induction db as [|tb db IH]; intros db';
    [simpl; discriminate|].
  rewrite find_table_cons. cbn [update_db].
  destruct (str_eq_dec (name tb) t) as [Ht|Ht].
  - destruct (index_of col (columns tb)) as [i|] eqn:Hi; [|discriminate].
    intros [= <-] Htext [= <-]. rewrite find_table_cons. cbn [name].
    destruct (str_eq_dec (name tb) t); [|contradiction].
    cbn [columns rows]. rewrite Hi. f_equal.
    unfold updated_rows. rewrite !map_map. apply map_ext_in. intros r Hr.
    unfold update_row. cbn [fst]. destruct (Z.eqb_spec (rowid r) id) as [Hid|Hid];
      [|reflexivity].
    cbn [rowid cells]. f_equal. apply nth_set_nth_same. apply nth_text_in_range.
    apply (Htext (rowid r, nth i (cells r) CNull)); [|exact Hid].
    apply in_map_iff. now exists r.
  - intros Hread Htext. destruct (update_db db t col v id) as [db1|]; [|discriminate].
    intros [= <-]. rewrite find_table_cons.
    destruct (str_eq_dec (name tb) t); [contradiction|]. exact (IH db1 Hread Htext eq_refl).
Qed.

Lemma updated_rows_unique (v : str) (id : Z) (c : cell) (pre rs : list (Z * cell)) :
  NoDup (map fst (pre ++ (id, c) :: rs)) ->
  updated_rows v id (pre ++ (id, c) :: rs) = pre ++ (id, CText v) :: rs.
Proof.
  intros Hnd. unfold updated_rows. rewrite map_app. cbn [map fst].
  rewrite Z.eqb_refl. rewrite map_app in Hnd. cbn [map fst] in Hnd.
  apply NoDup_remove_2 in Hnd.
  assert (forall l : list (Z * cell), ~ In id (map fst l) ->
            map (fun r => if fst r =? id then (fst r, CText v) else r) l = l) as Hsame.
  { induction l as [|r l IHl]; intros Hnot; [reflexivity|]. simpl in *.
    destruct (Z.eqb_spec (fst r) id); [tauto|]. f_equal. apply IHl. tauto. }
  rewrite !Hsame; [reflexivity | |]; intros Hin; apply Hnd, in_app_iff; tauto.
Qed.

Lemma NoDup_map_fst_inj {A B} (l : list (A * B)) (a b : A * B) :
  NoDup (map fst l) -> In a l -> In b l -> fst a = fst b -> a = b.
Proof.
  induction l as [|x l IH]; intros Hnd Ha Hb Heq; [destruct Ha|].
  simpl in Hnd. apply NoDup_cons_iff in Hnd as [Hnot Hnd].
  destruct Ha as [->|Ha], Hb as [->|Hb]; auto.
  - exfalso. apply Hnot. rewrite Heq. now apply in_map.
  - exfalso. apply Hnot. rewrite <- Heq. now apply in_map.
Qed.

(** *** The small SQLite serves its columns *)

Lemma skipn_cons_nth {A} (l : list A) (k : nat) (x : A) (rest : list A) :
  skipn k l = x :: rest ->
  nth_error l k = Some x /\ skipn (S k) l = rest /\ l = firstn k l ++ x :: rest.
Proof.
  revert k. induction l as [|y l IH]; intros k Hs.
  - destruct k; discriminate.
  - destruct k as [|k].
    + simpl in Hs. injection Hs as -> ->. auto.
    + simpl in Hs. destruct (IH k Hs) as (Hn & Hr & Hl). repeat split; auto.
      simpl. f_equal. exact Hl.
Qed.

Lemma updated_rows_fst (v : str) (id : Z) (result : list (Z * cell)) :
  map fst (updated_rows v id result) = map fst result.
Proof.
  unfold updated_rows. rewrite map_map. apply map_ext. intros r.
  now destruct (fst r =? id).
Qed.

(** A cursor of the small SQLite at position [k] follows the rows from
    [k] on. *)
Lemma plain_sqlite_follows (t col : str) (rest : list (Z * cell)) :
  forall db result k,
    read_column db t col = Some result ->
    NoDup (map fst result) ->
    skipn k result = rest ->
    follows t col (t, col, k) db rest.
Proof.
  induction rest as [|[id c] rest IH]; intros db result k Hread Hnd Hskip.
  - simpl. rewrite Hread.
    assert (nth_error result k = None) as ->; [|reflexivity].
    apply nth_error_None. rewrite <- (firstn_skipn k result), Hskip, app_nil_r.
    apply firstn_le_length.
  - destruct (skipn_cons_nth result k (id, c) rest Hskip) as (Hnth & Hrest & Hsplit).
    simpl. exists (t, col, S k). rewrite Hread, Hnth. split; [reflexivity|]. split.
    + exact (IH db result (S k) Hread Hnd Hrest).
    + intros Htext v db' Hu.
      destruct (update_db db t col v id) as [db1|] eqn:Hud; [|discriminate].
      injection Hu as <-.
      assert (read_column db1 t col = Some (updated_rows v id result)) as Hread'.
      { apply (update_db_read_same _ _ _ _ _ _ _ Hread); [|exact Hud].
        intros r Hin Hid.
        assert (r = (id, c)) as ->; [|exact Htext].
        apply (NoDup_map_fst_inj result); auto. exact (nth_error_In _ _ Hnth). }
      apply (IH db1 (updated_rows v id result) (S k) Hread').
      * now rewrite updated_rows_fst.
      * rewrite Hsplit in Hnd |- *. rewrite (updated_rows_unique v id c _ _ Hnd).
        assert (length (firstn k result) = k) as Hlen.
        { apply firstn_length_le. apply Nat.lt_le_incl, nth_error_Some. congruence. }
        rewrite skipn_app, Hlen, Nat.sub_succ_l, Nat.sub_diag by lia.
        rewrite skipn_all2 by lia. reflexivity.
Qed.

(** The small SQLite serves every column with a plain name. *)
Lemma plain_sqlite_served (t col : str) :
  bare_name t = true -> bare_name col = true -> served t col.
Proof.
  intros Ht Hcol. split.
  - intros db result Hread Hnd. exists (t, col, 0%nat). split.
    + simpl. now rewrite Ht, Hcol, Hread.
    + exact (plain_sqlite_follows t col result db result 0 Hread Hnd eq_refl).
  - intros db v id db' Hu. simpl. now rewrite Hu.
Qed.

(** *** The passes on the example databases *)

(** A table with a null cell in a column that also holds a match. *)
Definition notes : database :=
  [ {| name := lit "Notes";
       columns := [lit "note"];
       rows := [ {| rowid := 1; cells := [CText (lit "a great day")] |};
                 {| rowid := 2; cells := [CNull] |} ] |} ].

Definition notes_world : world := {| file := notes; txn := notes; log := [] |}.

Definition plain_rewriter (dryRun ignoreCase : bool) (search replace : str)
  : EWDatabaseRewriter :=
  {| dryRun := dryRun; replacewith := replace; ignorecase := ignoreCase;
     input := PPlain search |}.

Lemma songs_title_pairs : NoDup (pairs [(lit "Songs", [lit "title"])]).
Proof. repeat constructor; simpl; tauto. Qed.

Lemma songs_title_served :
  forall t col, In (t, col) (pairs [(lit "Songs", [lit "title"])]) -> served t col.
Proof. intros t col [[= <- <-]|[]]. now apply plain_sqlite_served. Qed.

Lemma songs_title_reach :
  forall t col, In (t, col) (pairs [(lit "Songs", [lit "title"])]) ->
    exists result,
      read_column songs t col = Some result /\ in_reach 18 result /\
      all_short_texts 18 result.
Proof.
  intros t col [[= <- <-]|[]]. eexists. split; [reflexivity|]. split.
  - split; [repeat constructor; simpl; intuition lia | simpl; lia].
  - intros r [<-|[<-|[]]]; eexists; (split; [reflexivity | simpl; lia]).
Qed.

Lemma notes_note_served :
  forall t col, In (t, col) (pairs [(lit "Notes", [lit "note"])]) -> served t col.
Proof. intros t col [[= <- <-]|[]]. now apply plain_sqlite_served. Qed.


Lemma startReplacement_unguarded_witness :
  (exists result,
     read_column songs (lit "Songs") (lit "title") = Some result /\
     forall r, In r result -> is_text (snd r) = true)
  /\
  fst (startReplacement (plain_rewriter false false (lit "great") (lit "GREAT")) 18
         [(lit "Notes", [lit "note"])] (PPlain (lit "great")) (lit "GREAT") 1 notes_world)
  = Raise TypeError.
Proof.
  split.
  - destruct (@startReplacement_unguarded literal_engine plain_sqlite 18
                (PPlain (lit "Great"))
                (lit "GREAT") 1 (plain_rewriter false false (lit "Great") (lit "GREAT"))
                [(lit "Songs", [lit "title"])] songs_world) as (_ & _ & _ & Hok & _).
    refine (Hok songs_title_pairs songs_title_served _ _ _ eq_refl
              (lit "Songs") (lit "title") (or_introl eq_refl)).
    intros t col Hin. destruct (songs_title_reach t col Hin) as (result & Hread & Hreach & _).
    now exists result.
  - destruct (@startReplacement_unguarded literal_engine plain_sqlite 18
                (PPlain (lit "great"))
                (lit "GREAT") 1 (plain_rewriter false false (lit "great") (lit "GREAT"))
                [(lit "Notes", [lit "note"])] notes_world) as (_ & _ & _ & _ & Hraise).
    specialize (Hraise (lit "great") eq_refl ltac:(discriminate) ltac:(discriminate)).
    destruct Hraise as [H | [Hic _]]; [| | | | exact H | discriminate Hic].
    + repeat constructor; simpl; tauto.
    + exact notes_note_served.
    + intros t col [[= <- <-]|[]]. eexists. split; [reflexivity|]. split.
      * split; [repeat constructor; simpl; intuition lia | simpl; lia].
      * intros r v [<-|[<-|[]]]; simpl; [intros [= <-]; simpl; lia | discriminate].
    + exists (lit "Notes"), (lit "note"),
             [(1, CText (lit "a great day")); (2, CNull)], (2, CNull).
      split; [now left|]. split; [reflexivity|]. split; [right; now left | reflexivity].
Defined.

(** Where case is ignored, the error on the null cell of the flagged
    column is an [AttributeError], not a [TypeError]. *)
Lemma startReplacement_unguarded_attribute_error :
  searchValuePlain true (lit "great") CNull = Raise AttributeError /\
  fst (startReplacement (plain_rewriter false true (lit "great") (lit "GREAT")) 18
         [(lit "Notes", [lit "note"])] (PPlain (lit "great")) (lit "GREAT") 1 notes_world)
  = Raise AttributeError.
Proof. split; reflexivity. Qed.

(** The scan flags the column of the null cell, and the rewrite pass then
    stops at that cell, after the update of the row before it. *)
Example notes_run :
  fst (__init__ 18 (lit "great") (lit "GREAT") false false false notes_world)
  = Raise TypeError
  /\ fst (__init__ 18 (lit "great") (lit "GREAT") false false true notes_world)
     = Raise AttributeError.
Proof. split; reflexivity. Qed.

(** The scenario of the specification, with the case-insensitive flag: one
    occurrence is found, and the title of row 2 is written back as it
    was. *)
Example songs_run_ignorecase :
  __init__ 18 (lit "great") (lit "GREAT") false false true songs_world
  = (Ok tt,
     {| file := songs; txn := songs;
        log := [EvListTables; EvSelectAll (lit "Songs");
                EvFound 1 [(lit "Songs", [lit "title"])];
                EvSelectColumn (lit "Songs") (lit "title");
                EvUpdate (lit "Songs") (lit "title") (lit "How Great Thou Art") (CInt 2);
                EvProgress 0 1; EvCommit;
                EvSummary 1 [(lit "Songs", [lit "title"])]; EvClose] |}).
Proof. reflexivity. Qed.

(** *** The empty search string *)

(** With the empty search string the loop of the plain renderer stays at
    the start of a non-empty value. *)
Lemma printDifferencePlain_spins (fuel : nat) (ic : bool) (rep value newValue : str) :
  value <> [] ->
  printDifferencePlain fuel ic [] rep value newValue = Running.
Proof.
  intros Hne. unfold printDifferencePlain.
  rewrite (while_stuck (diff_cond value) (diff_body ic [] rep value newValue)
             (fun st => Diff.lastIndex st = 0)); [reflexivity | | reflexivity].
  intros st H. pose proof (len_pos _ Hne). split.
  - unfold diff_cond. apply Z.ltb_lt. lia.
  - unfold diff_body. rewrite H. simpl lower.
    replace (if ic then find (lower value) [] 0 else find value [] 0) with 0
      by (destruct ic; rewrite find_empty; rewrite ?len_lower; lia).
    reflexivity.
Qed.


(** *** A column with a constraint *)

(** The small SQLite with every column UNIQUE: an update that would store
    a string that another row of the column holds raises
    [IntegrityError]. *)
Definition unique_sqlite : Sqlite := {|
  cursor := @cursor plain_sqlite;
  sql_select_all := @sql_select_all plain_sqlite;
  sql_select_column := @sql_select_column plain_sqlite;
  sql_fetch := @sql_fetch plain_sqlite;
  sql_update := fun db t col v id =>
    match read_column db t col with
    | Some rs =>
        if existsb (fun r =>
                      match snd r, id with
                      | CText s, CInt n =>
                          if str_eq_dec s v then negb (fst r =? n) else false
                      | _, _ => false
                      end) rs
        then Raise IntegrityError
        else @sql_update plain_sqlite db t col v id
    | None => Raise OperationalError
    end
|}.

Definition tags : database :=
  [ {| name := lit "Tags";
       columns := [lit "tag"];
       rows := [ {| rowid := 1; cells := [CText (lit "great")] |};
                 {| rowid := 2; cells := [CText (lit "GREAT")] |} ] |} ].

(** On such a column a dry run can return where the real run does not:
    the dry run shows the one change, which the update of the real run is
    refused. *)
Example startReplacement_unique_column :
  fst (@startReplacement literal_engine unique_sqlite
         (plain_rewriter true false (lit "great") (lit "GREAT")) 18
         [(lit "Tags", [lit "tag"])] (PPlain (lit "great")) (lit "GREAT") 1
         {| file := tags; txn := tags; log := [] |})
  = Ok 1
  /\
  @startReplacement literal_engine unique_sqlite
    (plain_rewriter false false (lit "great") (lit "GREAT")) 18
    [(lit "Tags", [lit "tag"])] (PPlain (lit "great")) (lit "GREAT") 1
    {| file := tags; txn := tags; log := [] |}
  = (Raise IntegrityError,
     {| file := tags; txn := tags;
        log := [EvSelectColumn (lit "Tags") (lit "tag")] |}).
Proof. split; reflexivity. Qed.



(** * Further properties of the engine *)

(** ** The scanning loop of the substituter *)

(** Replacement by a left-to-right scan that ignores case: where the
    lower-cased pattern [o :: old'] starts the lower-cased rest, emit [new]
    and skip the span; otherwise keep one character. *)
Equations? scan_replace (o : ascii) (old' new s : str) : str
  by wf (length s) lt :=
  scan_replace o old' new [] := [];
  scan_replace o old' new (c :: s')
    with startswith (lower (o :: old')) (lower (c :: s')) => {
    | true := new ++ scan_replace o old' new (skipn (length old') s');
    | false := c :: scan_replace o old' new s' }.
Proof.
  rewrite length_skipn. lia.
Qed.

Lemma scan_replace_found (o : ascii) (old' new t : str) (pos k : nat) :
  find_at (lower (o :: old')) (lower t) pos = Some (pos + k)%nat ->
  scan_replace o old' new t
  = firstn k t ++ new ++ scan_replace o old' new (skipn (k + S (length old')) t).
Proof.
  revert pos k. induction t as [|c t IH]; intros pos k.
  - simpl. discriminate.
  - change (lower (c :: t)) with (lower_char c :: lower t). cbn [find_at].
    simp scan_replace.
    change (lower (c :: t)) with (lower_char c :: lower t).
    destruct (startswith (lower (o :: old')) (lower_char c :: lower t)) eqn:Hs; cbn.
    + intros [= Hk]. assert (k = 0)%nat as -> by lia. reflexivity.
    + intros Hf. pose proof (find_at_bounds _ _ _ _ Hf) as [Hle _].
      destruct k as [|k]; [lia|].
      replace (pos + S k)%nat with (S pos + k)%nat in Hf by lia.
      rewrite (IH _ _ Hf). reflexivity.
Qed.

Lemma scan_replace_not_found (o : ascii) (old' new t : str) (pos : nat) :
  find_at (lower (o :: old')) (lower t) pos = None ->
  scan_replace o old' new t = t.
Proof.
  revert pos. induction t as [|c t IH]; intros pos.
  - intros _. now simp scan_replace.
  - change (lower (c :: t)) with (lower_char c :: lower t). cbn [find_at].
    simp scan_replace.
    change (lower (c :: t)) with (lower_char c :: lower t).
    destruct (startswith (lower (o :: old')) (lower_char c :: lower t)) eqn:Hs; cbn;
      [discriminate|].
    intros Hf. now rewrite (IH _ Hf).
Qed.

Lemma slice_inside (s : str) (a k : nat) :
  (a + k <= length s)%nat ->
  slice s (Z.of_nat a) (Z.of_nat (a + k)) = firstn k (skipn a s).
Proof.
  intros H. unfold slice.
  rewrite !slice_index_inside by (unfold len; lia).
  rewrite !Nat2Z.id. f_equal. lia.
Qed.

Lemma slice_from_inside (s : str) (a : nat) :
  (a <= length s)%nat -> slice_from s (Z.of_nat a) = skipn a s.
Proof.
  intros H. unfold slice_from.
  rewrite slice_index_inside by (unfold len; lia). now rewrite Nat2Z.id.
Qed.

Lemma find_from (s sub : str) (a : nat) :
  (a <= length s)%nat ->
  find s sub (Z.of_nat a)
  = match find_at sub (skipn a s) a with
    | Some i => Z.of_nat i
    | None => -1
    end.
Proof.
  intros H. unfold find.
  destruct (Z.ltb_spec (len s) (Z.of_nat a)); [unfold len in *; lia|].
  rewrite slice_index_inside by (unfold len; lia). now rewrite Nat2Z.id.
Qed.

Lemma skipn_lower (n : nat) (s : str) : skipn n (lower s) = lower (skipn n s).
Proof. unfold lower. apply skipn_map. Qed.

Lemma while_done {S : Type} (fuel : nat) (cond : S -> bool) (body : S -> S) (st : S) :
  cond st = false -> while fuel cond body st = Some st.
Proof. intros H. destruct fuel; simpl; now rewrite H. Qed.

(** The loop from cursor [L] on appends the scan of the rest of the
    value. *)
Lemma subst_loop_scan (o : ascii) (old' r v : str) :
  forall fuel L acc,
    (L <= length v)%nat ->
    (length v - L <= fuel)%nat ->
    option_map newstr
      (while fuel (subst_cond v) (subst_body (o :: old') r v)
         {| newstr := acc; lastIndex := Z.of_nat L |})
    = Some (acc ++ scan_replace o old' r (skipn L v)).
Proof.
  induction fuel as [|fuel IH]; intros L acc HL Hfuel.
  - assert (L = length v) as -> by lia.
    rewrite while_done by (unfold subst_cond, len; simpl; apply Z.ltb_irrefl).
    simpl. rewrite skipn_all. simp scan_replace. now rewrite app_nil_r.
  - destruct (Nat.eq_dec L (length v)) as [->|Hne].
    + rewrite while_done by (unfold subst_cond, len; simpl; apply Z.ltb_irrefl).
      simpl. rewrite skipn_all. simp scan_replace. now rewrite app_nil_r.
    + cbn [while]. unfold subst_cond at 1. cbn [lastIndex].
      replace (Z.of_nat L <? len v) with true
        by (symmetry; apply Z.ltb_lt; unfold len; lia).
      unfold subst_body at 2. cbn [lastIndex newstr].
      rewrite find_from by (unfold lower; rewrite length_map; lia).
      rewrite skipn_lower.
      destruct (find_at (lower (o :: old')) (lower (skipn L v)) L) as [i|] eqn:Hf.
      * pose proof (find_at_bounds _ _ _ _ Hf) as [Hlo Hhi].
        unfold lower in Hhi. rewrite !length_map, length_skipn in Hhi. simpl in Hhi.
        replace (Z.of_nat i <? 0) with false by (symmetry; apply Z.ltb_ge; lia).
        replace i with (L + (i - L))%nat in Hf by lia.
        rewrite (scan_replace_found _ _ r _ _ _ Hf).
        replace (Z.of_nat i + len (o :: old'))
          with (Z.of_nat (i + S (length old'))) by (unfold len; simpl; lia).
        rewrite IH by lia.
        replace (Z.of_nat i) with (Z.of_nat (L + (i - L))) by (f_equal; lia).
        rewrite slice_inside by lia.
        rewrite skipn_skipn. f_equal.
        replace (i - L + S (length old') + L)%nat with (i + S (length old'))%nat by lia.
        now rewrite <- !app_assoc.
      * change (-1 <? 0) with true. cbv iota.
        rewrite while_done by (unfold subst_cond; simpl; apply Z.ltb_irrefl).
        simpl. rewrite slice_from_inside by lia.
        now rewrite (scan_replace_not_found _ _ r _ _ Hf).
Qed.

(** With the case-insensitive flag unset and a non-empty search string, the
    plain substituter returns the scan of the value that ignores case:
    every occurrence, whatever its case, is replaced once, left to right,
    and the other characters are kept as they are. *)
Theorem substituteValuePlain_scans (fuel : nat) (o : ascii) (old' replacement value : str) :
  (length value <= fuel)%nat ->
  substituteValuePlain fuel false (o :: old') replacement value
  = Ok (scan_replace o old' replacement value).
Proof.
  intros Hfuel. unfold substituteValuePlain.
  change 0 with (Z.of_nat 0).
  rewrite (subst_loop_scan o old' replacement value fuel 0 []) by lia.
  reflexivity.
Qed.

Lemma substituteValuePlain_scans_witness :
  substituteValuePlain 11 false (lit "great") (lit "X") (lit "Great gREAT")
  = Ok (lit "X X").
Proof.
  apply (substituteValuePlain_scans 11 "g"%char (lit "reat") (lit "X") (lit "Great gREAT")).
  simpl. lia.
Defined.

Lemma scan_replace_caseless (o : ascii) (old' new : str) :
  lower (o :: old') = o :: old' ->
  forall n s, (length s <= n)%nat -> lower s = s ->
  scan_replace o old' new s = replace_nonempty o old' new s.
Proof.
  intros Hold. induction n as [|n IH]; intros s Hn Hs.
  - destruct s; [now simp scan_replace replace_nonempty | simpl in Hn; lia].
  - destruct s as [|c s]; [now simp scan_replace replace_nonempty|].
    simp scan_replace replace_nonempty. rewrite Hold, Hs.
    assert (lower s = s) as Hs' by (simpl in Hs; now injection Hs).
    destruct (startswith (o :: old') (c :: s)); cbn.
    + f_equal. apply IH.
      * rewrite length_skipn. simpl in Hn. lia.
      * now rewrite <- skipn_lower, Hs'.
    + f_equal. apply IH; [simpl in Hn; lia | exact Hs'].
Qed.

(** On text without capitals the case-insensitive flag makes no difference
    to the plain substituter: for a lower-case, non-empty search string and
    a lower-case value both settings return the same string. *)
Theorem substituteValuePlain_caseless (fuel : nat) (searchstring replacement value : str) :
  searchstring <> [] ->
  lower searchstring = searchstring ->
  lower value = value ->
  (length value <= fuel)%nat ->
  substituteValuePlain fuel false searchstring replacement value
  = substituteValuePlain fuel true searchstring replacement value.
Proof.
  intros Hne Hs Hv Hfuel. destruct searchstring as [|o old']; [congruence|].
  unfold substituteValuePlain, replace. change 0 with (Z.of_nat 0).
  rewrite (subst_loop_scan o old' replacement value fuel 0 []) by lia.
  cbn [of_option app skipn]. f_equal.
  exact (scan_replace_caseless o old' replacement Hs (length value) value (le_n _) Hv).
Qed.

Lemma substituteValuePlain_caseless_witness :
  substituteValuePlain 18 false (lit "great") (lit "GREAT") (lit "how great thou art")
  = substituteValuePlain 18 true (lit "great") (lit "GREAT") (lit "how great thou art").
Proof.
  apply substituteValuePlain_caseless;
    [discriminate | reflexivity | reflexivity | simpl; lia].
Defined.

Lemma substituteValuePlain_absent_witness :
  substituteValuePlain 1 false (lit "great") (lit "GREAT") (lit "Amazing Grace")
  = Ok (lit "Amazing Grace")
  /\ substituteValuePlain 1 true (lit "great") (lit "GREAT") (lit "Amazing Grace")
     = Ok (lit "Amazing Grace").
Proof.
  split; apply substituteValuePlain_absent;
    solve [discriminate | lia | reflexivity].
Defined.

(** ** The loop of the plain renderer *)

(** The plain renderer returns for a non-empty search string, within
    [len(value)] iterations, and for the empty value, which it does not
    enter; for the empty search string and a non-empty value it never
    does, under either setting of the flag. *)
Theorem printDifferencePlain_termination (ic : bool) (replace value newValue : str) :
  (forall search fuel, search <> [] -> (length value <= fuel)%nat ->
     exists st, printDifferencePlain fuel ic search replace value newValue = Ok st)
  /\ (value <> [] ->
      forall fuel, printDifferencePlain fuel ic [] replace value newValue = Running)
  /\ (value = [] ->
      forall search fuel,
        printDifferencePlain fuel ic search replace value newValue = Ok Diff.init).
Proof.
  split; [|split].
  - intros search fuel Hne Hfuel. now apply printDifferencePlain_returns.
  - intros Hne fuel. now apply printDifferencePlain_spins.
  - intros -> search fuel. unfold printDifferencePlain.
    now rewrite while_done by reflexivity.
Qed.

Lemma printDifferencePlain_termination_witness :
  (exists st, printDifferencePlain 4 true (lit "b") (lit "c") (lit "aBab") (lit "acac") = Ok st)
  /\ (forall fuel, printDifferencePlain fuel true [] (lit "c") (lit "ab") (lit "cacbc") = Running)
  /\ printDifferencePlain 0 false (lit "b") (lit "c") [] [] = Ok Diff.init.
Proof.
  destruct (printDifferencePlain_termination true (lit "c") (lit "aBab") (lit "acac"))
    as (H1 & _ & _).
  destruct (printDifferencePlain_termination true (lit "c") (lit "ab") (lit "cacbc"))
    as (_ & H2 & _).
  destruct (printDifferencePlain_termination false (lit "c") [] []) as (_ & _ & H3).
  split; [|split].
  - apply H1; [discriminate | simpl; lia].
  - apply H2. discriminate.
  - now apply H3.
Defined.

(** The front of the renderer's [find], with or without case. *)
Definition diff_find (ic : bool) (search value : str) (start : Z) : Z :=
  if ic then find (lower value) (lower search) start else find value search start.

Lemma diff_find_bounds (ic : bool) (search value : str) (start : Z) :
  0 <= start ->
  diff_find ic search value start = -1 \/
  (start <= diff_find ic search value start /\
   diff_find ic search value start + len search <= len value).
Proof.
  intros H. unfold diff_find. destruct ic.
  - pose proof (find_bounds (lower value) (lower search) start H). rewrite !len_lower in *.
    assumption.
  - exact (find_bounds value search start H).
Qed.

Lemma upto_0 (s : str) : upto s 0 = [].
Proof. reflexivity. Qed.

Lemma slice_from_len (s : str) : slice_from s (len s) = [].
Proof.
  unfold slice_from. rewrite slice_index_inside by (pose proof (len_nonneg s); lia).
  unfold len. rewrite Nat2Z.id. apply skipn_all.
Qed.

Lemma upto_app_l (a b : str) (i : Z) : 0 <= i <= len a -> upto (a ++ b) i = upto a i.
Proof.
  intros H. unfold upto. rewrite firstn_app.
  replace (Z.to_nat i - length a)%nat with 0%nat by (unfold len in H; lia).
  simpl. apply app_nil_r.
Qed.

Lemma upto_len (s : str) (i : Z) : 0 <= i <= len s -> len (upto s i) = i.
Proof.
  intros H. unfold upto, len in *. rewrite length_firstn. lia.
Qed.

Lemma slice_from_app (a b : str) : slice_from (a ++ b) (len a) = b.
Proof.
  unfold slice_from.
  rewrite slice_index_inside
    by (unfold len; rewrite length_app; lia).
  unfold len. rewrite Nat2Z.id, skipn_app, skipn_all, Nat.sub_diag. reflexivity.
Qed.

Lemma len_app (a b : str) : len (a ++ b) = len a + len b.
Proof. unfold len. rewrite length_app. lia. Qed.

Lemma while_step {S : Type} (fuel : nat) (cond : S -> bool) (body : S -> S) (st : S) :
  cond st = true -> while (Datatypes.S fuel) cond body st = while fuel cond body (body st).
Proof. intros H. simpl. now rewrite H. Qed.

Lemma diff_body_found (ic : bool) (search replace value newValue : str) (st : Diff.state) :
  0 <= diff_find ic search value (Diff.lastIndex st) ->
  diff_body ic search replace value newValue st
  = let index := diff_find ic search value (Diff.lastIndex st) in
    {| Diff.original := (Diff.original st
         ++ [Raw (slice value (Diff.lastIndex st) index);
             Fail (slice value index (index + len search))])
         ++ [Raw (slice_from value (index + len search))];
       Diff.new := (Diff.new st
         ++ [Raw (slice newValue (Diff.lastIndex st + Diff.discrepency st)
                    (index + Diff.discrepency st));
             OkGreen replace])
         ++ [Raw (slice_from newValue
                    (index + len search
                     + (Diff.discrepency st - (len replace - len search))))];
       Diff.lastIndex := index + len search;
       Diff.discrepency := Diff.discrepency st - (len replace - len search);
       Diff.printed := Diff.printed st ++ [(index, Diff.lastIndex st)] |}.
Proof.
  intros H. unfold diff_body. fold (diff_find ic search value (Diff.lastIndex st)).
  destruct (Z.ltb_spec (diff_find ic search value (Diff.lastIndex st)) 0); [lia|].
  reflexivity.
Qed.

Lemma diff_body_not_found (ic : bool) (search replace value newValue : str)
  (st : Diff.state) :
  diff_find ic search value (Diff.lastIndex st) < 0 ->
  diff_body ic search replace value newValue st
  = {| Diff.original := Diff.original st ++ [Raw (slice_from value (len value))];
       Diff.new := Diff.new st
         ++ [Raw (slice_from newValue (len value + Diff.discrepency st))];
       Diff.lastIndex := len value;
       Diff.discrepency := Diff.discrepency st;
       Diff.printed := Diff.printed st
         ++ [(diff_find ic search value (Diff.lastIndex st), Diff.lastIndex st)] |}.
Proof.
  intros H. unfold diff_body. fold (diff_find ic search value (Diff.lastIndex st)).
  destruct (Z.ltb_spec (diff_find ic search value (Diff.lastIndex st)) 0); [|lia].
  reflexivity.
Qed.

(** Where the pattern occurs once in the value, at [i], the plain renderer
    returns after at most two iterations and its first line spells the
    value.  When moreover the replacement is as long as the pattern, the
    second line spells the value with the occurrence replaced. *)
Theorem printDifferencePlain_single_occurrence (fuel : nat) (ic : bool)
  (search replace value newValue : str) (i : Z) :
  search <> [] ->
  (2 <= fuel)%nat ->
  0 <= i ->
  diff_find ic search value 0 = i ->
  diff_find ic search value (i + len search) = -1 ->
  exists st,
    printDifferencePlain fuel ic search replace value newValue = Ok st /\
    plain_text (spans (Diff.original st)) = value /\
    (len replace = len search ->
     newValue = upto value i ++ replace ++ slice_from value (i + len search) ->
     plain_text (spans (Diff.new st)) = newValue).
Proof.
  intros Hne Hfuel Hi Hfirst Hnext.
  pose proof (len_pos _ Hne) as Hpos.
  destruct (diff_find_bounds ic search value 0 ltac:(lia)) as [Hb|[_ Hb]];
    rewrite Hfirst in Hb; [lia|].
  destruct fuel as [|[|fuel]]; try lia.
  unfold printDifferencePlain.
  rewrite while_step by (unfold diff_cond; apply Z.ltb_lt; simpl; lia).
  rewrite diff_body_found by (simpl; lia).
  cbn [Diff.lastIndex Diff.discrepency Diff.original Diff.new Diff.printed Diff.init].
  rewrite Hfirst. cbv zeta.
  assert (upto value i ++ slice value i (i + len search)
          ++ slice_from value (i + len search) = value) as Horig.
  { rewrite app_assoc, upto_slice by lia. apply upto_slice_from. lia. }
  assert (slice value 0 i = upto value i) as Hpre
    by (rewrite <- (upto_slice value 0 i) by lia; reflexivity).
  assert (len replace = len search ->
          newValue = upto value i ++ replace ++ slice_from value (i + len search) ->
          slice newValue (0 + 0) (i + 0) ++ replace
          ++ slice_from newValue (i + len search + (0 - (len replace - len search)))
          = newValue) as Hnew.
  { intros Hlen Hnv.
    replace (i + len search + (0 - (len replace - len search))) with (i + len search) by lia.
    replace (0 + 0) with 0 by lia. replace (i + 0) with i by lia.
    assert (slice newValue 0 i = upto value i) as ->.
    { rewrite <- (app_nil_l (slice newValue 0 i)), <- (upto_0 newValue),
        upto_slice by lia.
      rewrite Hnv, upto_app_l by (rewrite upto_len; lia).
      unfold upto. now rewrite firstn_firstn, Nat.min_id. }
    assert (slice_from newValue (i + len search) = slice_from value (i + len search)) as ->.
    { assert (len (upto value i ++ replace) = i + len search) as Hla
        by (rewrite len_app, upto_len; lia).
      rewrite Hnv at 1. rewrite app_assoc, <- Hla. apply slice_from_app. }
    now symmetry. }
  destruct (Z.ltb_spec (i + len search) (len value)) as [Hlt|Hge].
  - rewrite while_step by (unfold diff_cond; apply Z.ltb_lt; simpl; lia).
    rewrite diff_body_not_found by (cbn [Diff.lastIndex]; rewrite Hnext; lia).
    cbn [Diff.lastIndex Diff.discrepency Diff.original Diff.new Diff.printed].
    rewrite while_done by (unfold diff_cond; cbn [Diff.lastIndex]; apply Z.ltb_irrefl).
    eexists. split; [reflexivity|]. cbn [Diff.original Diff.new spans tl app].
    split.
    + unfold plain_text. cbn [map concat piece_text].
      rewrite Hpre, slice_from_len, !app_nil_r. exact Horig.
    + intros Hlen Hnv. unfold plain_text. cbn [map concat piece_text].
      assert (len newValue = len value) as Hsame.
      { pose proof (f_equal len Horig) as Hl. rewrite !len_app in Hl.
        rewrite Hnv, !len_app.
        assert (len (slice value i (i + len search)) = len search) as Hsl; [|lia].
        unfold slice, len. rewrite !slice_index_inside by (unfold len in *; lia).
        rewrite length_firstn, length_skipn. unfold len in *. lia. }
      replace (len value + (0 - (len replace - len search))) with (len newValue) by lia.
      rewrite slice_from_len, !app_nil_r.
      exact (Hnew Hlen Hnv).
  - rewrite while_done
      by (unfold diff_cond; cbn [Diff.lastIndex]; apply Z.ltb_ge; lia).
    eexists. split; [reflexivity|]. cbn [Diff.original Diff.new spans tl app].
    split.
    + unfold plain_text. cbn [map concat piece_text].
      rewrite Hpre, !app_nil_r. exact Horig.
    + intros Hlen Hnv. unfold plain_text. cbn [map concat piece_text].
      rewrite !app_nil_r. exact (Hnew Hlen Hnv).
Qed.

Lemma printDifferencePlain_single_occurrence_witness :
  exists st,
    printDifferencePlain 2 false (lit "Great") (lit "GREAT") (lit "How Great Thou Art")
      (lit "How GREAT Thou Art") = Ok st /\
    plain_text (spans (Diff.original st)) = lit "How Great Thou Art" /\
    plain_text (spans (Diff.new st)) = lit "How GREAT Thou Art".
Proof.
  destruct (printDifferencePlain_single_occurrence 2 false (lit "Great") (lit "GREAT")
              (lit "How Great Thou Art") (lit "How GREAT Thou Art") 4)
    as (st & Hst & Ho & Hn);
    [discriminate | lia | lia | reflexivity | reflexivity |].
  exists st. split; [exact Hst|]. split; [exact Ho|].
  apply Hn; reflexivity.
Defined.

(** ** The scan pass reads only *)

Section ScanFrame.
Context `{E : ReEngine} `{Q : Sqlite}.

Lemma untouched_select_all (t : str) : keeps untouched (select_all t).
Proof.
  unfold select_all.
  apply (keeps_bind untouched untouched_trans); [now apply untouched_emit|].
  intros _ w. apply untouched_refl.
Qed.

Lemma untouched_scan (self : EWDatabaseRewriter) (tables : list str) (search : pattern) :
  keeps untouched (getTablesWhereStringExists self tables search).
Proof.
  unfold getTablesWhereStringExists, scan_table.
  repeat first
    [ apply untouched_select_all
    | apply untouched_emit; reflexivity
    | apply (keeps_lift untouched untouched_refl)
    | apply (keeps_ret untouched untouched_refl)
    | apply (keeps_for_each untouched untouched_refl untouched_trans); intros ? ?
    | apply (keeps_bind untouched untouched_trans); [|intros ?] ].
Qed.

(** The scan pass writes nothing, whatever the tables it is given,
    whatever SQLite makes of its selects and whatever its outcome; when the
    select of the first table raises, so does the scan. *)
Theorem getTablesWhereStringExists_reads_only (self : EWDatabaseRewriter)
  (tables : list str) (search : pattern) (w : world) :
  untouched w (snd (getTablesWhereStringExists self tables search w))
  /\ (forall t rest e,
        tables = t :: rest -> sql_select_all (txn w) t = Raise e ->
        fst (getTablesWhereStringExists self tables search w) = Raise e).
Proof.
  split; [apply untouched_scan|].
  intros t rest e -> Hraise.
  unfold getTablesWhereStringExists, bind, scan_table, select_all, emit. simpl.
  unfold bind. simpl. now rewrite Hraise.
Qed.

End ScanFrame.

Lemma getTablesWhereStringExists_reads_only_witness :
  fst (getTablesWhereStringExists (plain_rewriter false false (lit "great") (lit "GREAT"))
         [lit "Psalms"] (PPlain (lit "great")) songs_world)
  = Raise OperationalError.
Proof.
  destruct (@getTablesWhereStringExists_reads_only literal_engine plain_sqlite
              (plain_rewriter false false (lit "great") (lit "GREAT"))
              [lit "Psalms"] (PPlain (lit "great")) songs_world) as [_ H].
  exact (H (lit "Psalms") [] OperationalError eq_refl eq_refl).
Defined.

(** ** The whole run *)

(** Nothing was committed in between, and the connection sees what it saw
    or, once closed, what is committed. *)
Definition unwritten (w w' : world) : Prop :=
  file w' = file w /\
  (txn w' = txn w \/ txn w' = file w) /\
  exists l, log w' = log w ++ l /\ Forall (fun ev => is_write ev = false) l.

Lemma unwritten_refl (w : world) : unwritten w w.
Proof.
  split; [reflexivity|]. split; [now left|]. exists []. now rewrite app_nil_r.
Qed.

Lemma unwritten_trans (a b c : world) : unwritten a b -> unwritten b c -> unwritten a c.
Proof.
  intros (Hf & Ht & l & Hl & Hro) (Hf' & Ht' & l' & Hl' & Hro').
  split; [congruence|]. split.
  - destruct Ht as [Ht|Ht], Ht' as [Ht'|Ht']; [left|right|right|right]; congruence.
  - exists (l ++ l'). split; [rewrite Hl', Hl; now rewrite app_assoc|].
    apply Forall_app. now split.
Qed.

Lemma untouched_unwritten {A} (m : M A) : keeps untouched m -> keeps unwritten m.
Proof.
  intros H w. destruct (H w) as (Hf & Ht & Hl). split; [exact Hf|]. split; [now left|exact Hl].
Qed.

Lemma unwritten_close : keeps unwritten close.
Proof.
  intros w. split; [reflexivity|]. split; [now right|].
  exists [EvClose]. split; [reflexivity | now constructor].
Qed.

Section WholeRun.
Context `{E : ReEngine} `{Q : Sqlite}.

Lemma runReplacement_dry_unwritten (self : EWDatabaseRewriter) (fuel : nat) :
  dryRun self = true -> keeps unwritten (runReplacement self fuel).
Proof.
  intros Hdry. unfold runReplacement, getTables.
  apply (keeps_bind unwritten unwritten_trans).
  { apply untouched_unwritten.
    apply (keeps_bind untouched untouched_trans); [now apply untouched_emit|].
    intros _ w. apply untouched_refl. }
  intros tables. apply (keeps_bind unwritten unwritten_trans).
  { apply untouched_unwritten, untouched_scan. }
  intros res. apply (keeps_bind unwritten unwritten_trans); [|intros _; apply unwritten_close].
  apply untouched_unwritten. destruct (snd res >? 0).
  - apply (keeps_bind untouched untouched_trans).
    + now apply startReplacement_dry_untouched.
    + intros _. apply (keeps_ret untouched untouched_refl).
  - now apply untouched_emit.
Qed.

Lemma init_dry_keeps_unwritten (fuel : nat) (search replace : str)
  (useregex ignoreCase : bool) :
  keeps unwritten (__init__ fuel search replace useregex true ignoreCase).
Proof.
  unfold __init__. apply (keeps_bind unwritten unwritten_trans).
  - destruct useregex.
    + apply (keeps_bind unwritten unwritten_trans);
        [apply (keeps_lift unwritten unwritten_refl)|].
      intros r. apply (keeps_ret unwritten unwritten_refl).
    + apply (keeps_ret unwritten unwritten_refl).
  - intros inp. now apply runReplacement_dry_unwritten.
Qed.

(** A rewriter constructed with [dryRun] commits nothing and logs no
    update and no commit, in plain or regex mode and whatever comes of the
    run: a return, an exception or an endless loop.  The connection still
    sees the committed content if it did before. *)
Theorem init_dry_run_unwritten (fuel : nat) (search replace : str)
  (useregex ignoreCase : bool) (w : world) :
  let w' := snd (__init__ fuel search replace useregex true ignoreCase w) in
  file w' = file w /\
  (txn w = file w -> txn w' = txn w) /\
  exists l, log w' = log w ++ l /\ Forall (fun ev => is_write ev = false) l.
Proof.
  destruct (init_dry_keeps_unwritten fuel search replace useregex ignoreCase w)
    as (Hf & Ht & Hl).
  cbv zeta. split; [exact Hf|]. split; [|exact Hl].
  intros Heq. destruct Ht; congruence.
Qed.

End WholeRun.

Lemma init_dry_run_unwritten_witness :
  txn (snd (__init__ 18 (lit "Great") (lit "GREAT") false true false songs_world)) = songs.
Proof.
  destruct (@init_dry_run_unwritten literal_engine plain_sqlite 18 (lit "Great") (lit "GREAT")
              false false songs_world) as (_ & H & _).
  exact (H eq_refl).
Defined.

(** *** A run on a database without occurrence *)

Section NothingToDo.
Context `{E : ReEngine} `{Q : Sqlite}.
Variable self : EWDatabaseRewriter.
Variable search : pattern.

(** The select of every table in the list returns, and no string cell of
    a row it gives matches. *)
Definition no_hit_in (db : database) (tables : list str) : Prop :=
  forall t, In t tables ->
    exists names rs,
      sql_select_all db t = Ok (names, rs) /\
      forall r c, In r rs -> In c r -> cell_hit self search c = false.

(** No string cell of the database matches: every table is read, and
    nothing that is read matches. *)
Definition no_hit (db : database) : Prop := no_hit_in db (map name db).

Lemma scan_cells_miss (t : str) (names : list str) (acc : report * Z)
  (l : list (nat * cell)) :
  (forall ic, In ic l -> cell_hit self search (snd ic) = false) ->
  for_each_pure (scan_cell self search t names) l acc = Ok acc.
Proof.
  induction l as [|[i c] l IH]; intros Hmiss; [reflexivity|]. simpl.
  assert (scan_cell self search t names acc (i, c) = Ok acc) as ->.
  { specialize (Hmiss (i, c) (or_introl eq_refl)). simpl in Hmiss.
    destruct acc as [rep n]. unfold scan_cell. destruct c; try reflexivity.
    rewrite searchValue_text. simpl in Hmiss. now rewrite Hmiss. }
  apply IH. intros ic Hin. apply Hmiss. now right.
Qed.

Lemma scan_rows_miss (t : str) (names : list str) (acc : report * Z)
  (rs : list (list cell)) :
  (forall r c, In r rs -> In c r -> cell_hit self search c = false) ->
  for_each_pure (scan_row self search t names) rs acc = Ok acc.
Proof.
  induction rs as [|r rs IH]; intros Hmiss; [reflexivity|]. simpl.
  unfold scan_row at 1. rewrite scan_cells_miss.
  - apply IH. intros r' c Hr. apply Hmiss. now right.
  - intros [i c] Hin. simpl. apply (Hmiss r c); [now left|].
    apply in_enumerate_from in Hin as (j & _ & Hj). exact (nth_error_In _ _ Hj).
Qed.

Lemma scan_tables_miss (tables : list str) (acc : report * Z) (w : world) :
  no_hit_in (txn w) tables ->
  for_each (scan_table self search) tables acc w
  = (Ok acc, {| file := file w; txn := txn w; log := log w ++ map EvSelectAll tables |}).
Proof.
  revert w. induction tables as [|t tables IH]; intros w Hmiss; simpl.
  - unfold ret. rewrite app_nil_r. now destruct w.
  - unfold bind at 1. unfold scan_table at 1. unfold select_all, bind, emit, lift. simpl.
    destruct (Hmiss t (or_introl eq_refl)) as (names & rs & -> & Hrs). cbn [fst snd].
    rewrite scan_rows_miss by exact Hrs.
    rewrite IH; [simpl; now rewrite <- app_assoc|].
    intros t' Ht'. apply Hmiss. now right.
Qed.

End NothingToDo.

Section NothingToDoRun.
Context `{E : ReEngine} `{Q : Sqlite}.

(** When every table is read and no string cell matches the pattern, the
    run, in write mode as in a dry run, lists the tables, reads each of
    them once, reports that there is nothing to do and closes: it selects
    no column, updates and commits nothing. *)
Theorem runReplacement_nothing_to_do (self : EWDatabaseRewriter) (fuel : nat) (w : world) :
  no_hit self (input self) (txn w) ->
  runReplacement self fuel w
  = (Ok tt,
     {| file := file w; txn := file w;
        log := log w ++ [EvListTables] ++ map EvSelectAll (map name (txn w))
                 ++ [EvFound 0 []; EvNothing; EvClose] |}).
Proof.
  intros Hmiss. unfold runReplacement, getTables.
  unfold bind at 1. unfold bind at 1. unfold emit at 1. cbn [txn file log].
  unfold bind at 1. unfold getTablesWhereStringExists. unfold bind at 1.
  rewrite (scan_tables_miss self (input self)) by exact Hmiss.
  unfold bind, emit, ret, close. simpl. rewrite <- !app_assoc. reflexivity.
Qed.

End NothingToDoRun.

Lemma runReplacement_nothing_to_do_witness :
  fst (runReplacement (plain_rewriter false false (lit "psalm") (lit "hymn")) 18 songs_world)
  = Ok tt.
Proof.
  rewrite (@runReplacement_nothing_to_do literal_engine plain_sqlite
             (plain_rewriter false false (lit "psalm") (lit "hymn")) 18 songs_world);
    [reflexivity|].
  intros t [<-|[]]. eexists _, _. split; [reflexivity|].
  intros r c [<-|[<-|[]]] Hc; simpl in Hc;
    repeat (destruct Hc as [<-|Hc]; [reflexivity|]); destruct Hc.
Defined.

(** ** What a rewrite pass that returns has done *)

Lemma for_rows_ok_rel `{Sqlite} {B} (body : B -> cell * cell -> M B)
  (R : B -> world -> B -> world -> Prop) :
  (forall acc w, R acc w acc w) ->
  (forall a1 w1 a2 w2 a3 w3, R a1 w1 a2 w2 -> R a2 w2 a3 w3 -> R a1 w1 a3 w3) ->
  (forall r acc w acc' w', body acc r w = (Ok acc', w') -> R acc w acc' w') ->
  forall fuel cur acc w acc' w',
    for_rows fuel body cur acc w = (Ok acc', w') -> R acc w acc' w'.
Proof.
  intros Hrefl Htrans Hbody. induction fuel as [|fuel IH]; intros cur acc w acc' w'; simpl;
    destruct (sql_fetch cur (txn w)) as [[[r cur']|]| |]; try discriminate;
    try (intros [= <- <-]; apply Hrefl).
  unfold bind. destruct (body acc r w) as [[a|e|] w1] eqn:Hb; try discriminate.
  intros Hrest. eapply Htrans; [exact (Hbody _ _ _ _ _ Hb) | exact (IH _ _ _ _ _ Hrest)].
Qed.

Definition is_commit (ev : event) : bool :=
  match ev with
  | EvCommit => true
  | _ => false
  end.

(** The number of commits in a trace. *)
Definition commits (l : list event) : nat := length (filter is_commit l).

Lemma commits_app (l1 l2 : list event) : commits (l1 ++ l2) = (commits l1 + commits l2)%nat.
Proof. unfold commits. now rewrite filter_app, length_app. Qed.

Lemma changes_length_app (l1 l2 : list event) :
  length (changes (l1 ++ l2)) = (length (changes l1) + length (changes l2))%nat.
Proof. now rewrite changes_app, length_app. Qed.

Section PassEffects.
Context `{E : ReEngine} `{Q : Sqlite}.
Variable s : EWDatabaseRewriter.
Variable fuel : nat.
Variable search : pattern.
Variable replace : str.
Variable expectedTotal : Z.

(** Between two points of a pass: the count has grown by the number of
    changes logged, and no commit was logged. *)
Definition counted (n : Z) (w : world) (n' : Z) (w' : world) : Prop :=
  n' - n = Z.of_nat (length (changes (log w'))) - Z.of_nat (length (changes (log w)))
  /\ commits (log w') = commits (log w).

Lemma replace_row_counted (t col : str) (n n' : Z) (r : cell * cell) (w w' : world) :
  replace_row s fuel search replace expectedTotal t col n r w = (Ok n', w') ->
  counted n w n' w'.
Proof.
  unfold replace_row, bind, lift, counted. destruct r as [id c]. cbn [fst snd].
  destruct (searchValue s search c) as [[|]| |]; try discriminate.
  - destruct (substituteValue s fuel search replace c) as [v'| |]; try discriminate.
    destruct (dryRun s).
    + destruct c as [| | |v|]; try discriminate.
      destruct (printDifference s fuel search replace v v') as [d| |]; try discriminate.
      unfold emit, ret. intros [= <- <-]. cbn [log].
      rewrite changes_length_app, commits_app. unfold commits. simpl. lia.
    + unfold update.
      destruct (sql_update (txn w) t col v' id) as [db'| |]; try discriminate.
      destruct (n mod 20 =? 0); [destruct (expectedTotal =? 0); [discriminate|]|];
        unfold emit, ret; intros [= <- <-]; cbn [log];
        rewrite ?changes_length_app, ?commits_app; unfold commits; simpl; lia.
  - unfold ret. intros [= <- <-]. lia.
Qed.

Lemma counted_refl (n : Z) (w : world) : counted n w n w.
Proof. unfold counted. lia. Qed.

Lemma counted_trans (a1 : Z) (w1 : world) (a2 : Z) (w2 : world) (a3 : Z) (w3 : world) :
  counted a1 w1 a2 w2 -> counted a2 w2 a3 w3 -> counted a1 w1 a3 w3.
Proof. unfold counted. lia. Qed.

(** After a column: the count has grown by the changes, there is one more
    commit in write mode, and in write mode everything is committed. *)
Definition column_done (n : Z) (w : world) (n' : Z) (w' : world) : Prop :=
  n' - n = Z.of_nat (length (changes (log w'))) - Z.of_nat (length (changes (log w)))
  /\ commits (log w') = (commits (log w) + (if dryRun s then 0 else 1))%nat
  /\ (dryRun s = false -> file w' = txn w').

Lemma replace_column_done (t col : str) (n n' : Z) (w w' : world) :
  replace_column s fuel search replace expectedTotal t n col w = (Ok n', w') ->
  column_done n w n' w'.
Proof.
  rewrite replace_column_unfold.
  destruct (sql_select_column (txn w) t col) as [cur| |]; try discriminate.
  destruct (for_rows _ _ cur n _) as [[n1|e|] w1] eqn:Hrows; try discriminate.
  pose proof (for_rows_ok_rel _ counted counted_refl counted_trans
                (fun r acc w0 acc' w0' => replace_row_counted t col acc acc' r w0 w0')
                _ _ _ _ _ _ Hrows) as [Hc Hk].
  unfold logged in Hc, Hk. cbn [log] in Hc, Hk.
  rewrite changes_length_app in Hc. rewrite commits_app in Hk.
  unfold column_done. destruct (dryRun s); intros [= <- <-]; cbn [log file txn].
  - unfold commits in *. simpl in *. repeat split; try lia; try discriminate.
  - rewrite changes_length_app, commits_app. unfold commits in *. simpl in *.
    repeat split; lia.
Qed.

(** The same after the columns of the pairs [ps]. *)
Definition pass_done (ps : list (str * str)) (n : Z) (w : world) (n' : Z) (w' : world)
  : Prop :=
  n' - n = Z.of_nat (length (changes (log w'))) - Z.of_nat (length (changes (log w)))
  /\ commits (log w') = (commits (log w) + (if dryRun s then 0 else length ps))%nat
  /\ (dryRun s = false -> ps <> [] -> file w' = txn w').

Lemma pairs_loop_done (ps : list (str * str)) :
  forall n w n' w',
    for_each (column_step fuel search replace expectedTotal s) ps n w = (Ok n', w') ->
    pass_done ps n w n' w'.
Proof.
  induction ps as [|[t col] ps IH]; intros n w n' w'; simpl.
  - unfold ret. intros [= <- <-]. unfold pass_done.
    split; [lia|]. split; [destruct (dryRun s); simpl; lia|].
    intros _ H. now contradiction H.
  - unfold bind, column_step at 1. cbn [fst snd].
    destruct (replace_column s fuel search replace expectedTotal t n col w)
      as [[n1|e|] w1] eqn:Hcol; try discriminate.
    intros Hrest. apply replace_column_done in Hcol as (Hc1 & Hk1 & Hf1).
    destruct (IH _ _ _ _ Hrest) as (Hc2 & Hk2 & Hf2).
    unfold pass_done. split; [lia|]. split.
    + destruct (dryRun s); simpl; lia.
    + intros Hreal _. destruct ps as [|p ps]; [|apply Hf2; [exact Hreal | discriminate]].
      simpl in Hrest. unfold ret in Hrest. injection Hrest as <- <-. now apply Hf1.
Qed.

(** A pass that returns reports as its count the number of cells it has
    changed (updated, or shown in a dry run).  In write mode it has
    committed once for every (table, column) pair of the report, that is
    per column and not per table, and leaves nothing uncommitted; a dry
    run has not committed. *)
Theorem startReplacement_accounts (tables : report) (w w' : world) (n : Z) :
  startReplacement s fuel tables search replace expectedTotal w = (Ok n, w') ->
  n = Z.of_nat (length (changes (log w'))) - Z.of_nat (length (changes (log w)))
  /\ commits (log w')
     = (commits (log w) + (if dryRun s then 0 else length (pairs tables)))%nat
  /\ (dryRun s = false -> pairs tables <> [] -> file w' = txn w').
Proof.
  rewrite startReplacement_unfold.
  destruct (for_each _ (pairs tables) 0 w) as [[n1|e|] w1] eqn:Hloop; try discriminate.
  intros [= <- <-]. apply pairs_loop_done in Hloop as (Hc & Hk & Hf).
  unfold logged. cbn [log file txn]. rewrite changes_length_app, commits_app.
  unfold commits in *. simpl. split; [lia|]. split; [lia | exact Hf].
Qed.

End PassEffects.

Lemma startReplacement_accounts_witness :
  2 = Z.of_nat (length (changes (log (snd (startReplacement
                  (plain_rewriter false false (lit "a") (lit "A")) 18
                  [(lit "Songs", [lit "title"])] (PPlain (lit "a")) (lit "A")
                  2 songs_world))))) - 0
  /\ commits (log (snd (startReplacement (plain_rewriter false false (lit "a") (lit "A")) 18
                          [(lit "Songs", [lit "title"])] (PPlain (lit "a")) (lit "A")
                          2 songs_world)))
     = 1%nat.
Proof.
  assert (startReplacement (plain_rewriter false false (lit "a") (lit "A")) 18
            [(lit "Songs", [lit "title"])] (PPlain (lit "a")) (lit "A") 2 songs_world
          = (Ok 2,
             snd (startReplacement (plain_rewriter false false (lit "a") (lit "A")) 18
                    [(lit "Songs", [lit "title"])] (PPlain (lit "a")) (lit "A")
                    2 songs_world))) as Hrun by (vm_compute; reflexivity).
  destruct (@startReplacement_accounts literal_engine plain_sqlite
              (plain_rewriter false false (lit "a") (lit "A")) 18 (PPlain (lit "a")) (lit "A") 2
              [(lit "Songs", [lit "title"])] songs_world _ 2 Hrun)
    as (Hn & Hk & _).
  exact (conj Hn Hk).
Defined.

(** ** What a write pass leaves in the database *)

Section WritePass.
Context `{E : ReEngine} `{Q : Sqlite}.
Variable s : EWDatabaseRewriter.
Variable fuel : nat.
Variable search : pattern.
Variable replace : str.
Variable expectedTotal : Z.






(** When the select of the first column of the report raises, as it does
    for a table or a column that SQLite does not find under the name in
    the statement, the pass raises that exception at once: no cell has
    been read or written. *)
Theorem startReplacement_unknown_column (t col : str) (cols : list str) (rest : report)
  (e : exn) (w : world) :
  sql_select_column (txn w) t col = Raise e ->
  startReplacement s fuel ((t, col :: cols) :: rest) search replace expectedTotal w
  = (Raise e, logged w (EvSelectColumn t col)).
Proof.
  intros Hraise. rewrite startReplacement_unfold. cbn [pairs flat_map map fst snd app for_each].
  unfold bind, column_step at 1. cbn [fst snd].
  now rewrite replace_column_unfold, Hraise.
Qed.

End WritePass.



Lemma startReplacement_unknown_column_witness :
  fst (startReplacement (plain_rewriter false false (lit "Great") (lit "GREAT")) 18
         [(lit "Songs", [lit "author"])] (PPlain (lit "Great")) (lit "GREAT") 1 songs_world)
  = Raise OperationalError.
Proof.
  rewrite (@startReplacement_unknown_column literal_engine plain_sqlite
             (plain_rewriter false false (lit "Great") (lit "GREAT")) 18
             (PPlain (lit "Great")) (lit "GREAT") 1 (lit "Songs") (lit "author") [] []
             OperationalError songs_world eq_refl).
  reflexivity.
Defined.

(** ** A whole run in write mode *)




Section WriteRun.
Context `{E : ReEngine} `{Q : Sqlite}.




End WriteRun.


(** * The program around the rewriter *)

(** ** Output path *)

(** [s.endswith(suffix)] *)
Definition endswith (s suffix : str) : bool := startswith (rev suffix) (rev s).

Lemma endswith_iff (s suffix : str) :
  endswith s suffix = true <-> exists pre, s = pre ++ suffix.
Proof.
  unfold endswith. rewrite startswith_app. split.
  - intros [post H]. exists (rev post).
    rewrite <- (rev_involutive s), H, rev_app_distr, rev_involutive. reflexivity.
  - intros [pre ->]. exists (rev pre). now rewrite rev_app_distr.
Qed.

(** What the program takes from [os.path] and [os]. *)
Class OsPath := {
  isabs : str -> bool;
  abspath : str -> str;
  join : str -> str -> str;
  getcwd : str
}.

Definition ewsx : str := lit ".ewsx".

(** [ScheduleExtractor.getAbsoluteOutPath] *)
Definition getAbsoluteOutPath `{OsPath} (out : str) : str :=
  let out := if endswith out ewsx then out else out ++ ewsx in
  if isabs out then out else abspath (join getcwd out).

(** ** The main flow *)

(** The command-line arguments. *)
Record arguments := {
  inputfile : str;
  outputfile : str;
  arg_search : str;
  arg_replace : str;
  arg_regex : bool;
  arg_ignore_case : bool;
  arg_dry_run : bool
}.

(** What the run meets outside: which paths are files, the lines standard
    input holds, the database of the schedule ([None] when the archive
    cannot be unpacked) and whether the temporary directory can be
    removed. *)
Record environment := {
  isfile : str -> bool;
  stdin : list str;
  archive : option database;
  rmtree_ok : bool
}.

Inductive main_event :=
| MInput (answer : str)               (* input() returned [answer] *)
| MExtract                            (* extractSchedule *)
| MRewriter (w : world)               (* EWDatabaseRewriter(...), with its world *)
| MZip (output : str) (db : database) (* zipResults *)
| MCleanup.                           (* cleanup *)

Inductive main_exn :=
| EOFError
| BadArchive
| RewriterError (e : exn).

Inductive main_outcome :=
| Completed
| Exited (code : Z)
| Uncaught (e : main_exn)
| Hangs.

Definition yesChoice : list str := [lit "yes"; lit "Yes"; lit "YES"; lit "Y"].
Definition noChoice : list str := [lit "n"; lit "N"; lit "NO"; lit "no"; lit "No"].

Definition accepted (r : str) : bool :=
  if in_dec str_eq_dec r (yesChoice ++ noChoice) then true else false.

(** The answers read until one is accepted: [None] when standard input
    ends first. *)
Fixpoint ask (lines : list str) : option str * list main_event :=
  match lines with
  | [] => (None, [])
  | r :: lines' =>
      if accepted r then (Some r, [MInput r])
      else let '(a, tr) := ask lines' in (a, MInput r :: tr)
  end.

(** The outcome of the question whether to overwrite the output file. *)
Inductive decision := Go | Decline | EndOfInput.

Definition confirm (lines : list str) : decision * list main_event :=
  match ask lines with
  | (Some r, asked) => (if in_dec str_eq_dec r noChoice then Decline else Go, asked)
  | (None, asked) => (EndOfInput, asked)
  end.

Section Main.
Context `{E : ReEngine} `{Q : Sqlite} `{O : OsPath}.

(** [Main.invokeMain] *)
Definition invokeMain (env : environment) (fuel : nat) (args : arguments)
  : main_outcome * list main_event :=
  if negb (isfile env (inputfile args)) then (Exited 2, [])
  else if negb (endswith (inputfile args) ewsx) then (Exited 3, [])
  else
    let output := getAbsoluteOutPath (outputfile args) in
    let '(go, asked) :=
      if negb (arg_dry_run args) && isfile env output then confirm (stdin env)
      else (Go, []) in
    match go with
    | EndOfInput => (Uncaught EOFError, asked)
    | Decline => (Exited 0, asked)
    | Go =>
        match archive env with
        | None => (Uncaught BadArchive, asked)
        | Some db =>
            let run := __init__ fuel (arg_search args) (arg_replace args)
                         (arg_regex args) (arg_dry_run args) (arg_ignore_case args)
                         {| file := db; txn := db; log := [] |} in
            let trace := asked ++ [MExtract; MRewriter (snd run)] in
            match fst run with
            | Ok _ =>
                let trace :=
                  if arg_dry_run args then trace
                  else trace ++ [MZip output (file (snd run))] in
                if rmtree_ok env then (Completed, trace ++ [MCleanup])
                else (Exited 4, trace)
            | Raise e => (Uncaught (RewriterError e), trace)
            | Running => (Hangs, trace)
            end
        end
    end.

End Main.

(** ** Properties of the main flow *)

Lemma ask_events (lines : list str) (ev : main_event) :
  In ev (snd (ask lines)) -> exists r, ev = MInput r.
Proof.
  induction lines as [|r lines IH]; simpl; [tauto|].
  destruct (accepted r); simpl.
  - intros [<-|[]]. now exists r.
  - destruct (ask lines) as [a tr]. simpl in *. intros [<-|Hin]; [now exists r | auto].
Qed.

Lemma ask_answer (lines : list str) (r : str) :
  fst (ask lines) = Some r -> accepted r = true /\ In (MInput r) (snd (ask lines)).
Proof.
  induction lines as [|x lines IH]; simpl; [discriminate|].
  destruct (accepted x) eqn:Hx; simpl.
  - intros [= <-]. split; [exact Hx | now left].
  - destruct (ask lines) as [a tr]. simpl in *. intros Ha.
    destruct (IH Ha). split; [assumption | now right].
Qed.

Lemma ask_first_accepted (bad rest : list str) (r : str) :
  Forall (fun x => accepted x = false) bad ->
  accepted r = true ->
  ask (bad ++ r :: rest) = (Some r, map MInput (bad ++ [r])).
Proof.
  intros Hbad Hr. induction Hbad as [|x bad Hx _ IH]; simpl.
  - now rewrite Hr.
  - now rewrite Hx, IH.
Qed.

Lemma accepted_yes_or_no (r : str) :
  accepted r = true -> ~ In r noChoice -> In r yesChoice.
Proof.
  unfold accepted. destruct (in_dec str_eq_dec r (yesChoice ++ noChoice)) as [Hin|];
    [|discriminate].
  intros _ Hno. apply in_app_iff in Hin. tauto.
Qed.

Section MainProperties.
Context `{E : ReEngine} `{Q : Sqlite} `{O : OsPath}.
Variable env : environment.
Variable fuel : nat.
Variable args : arguments.

(** The rewriter as [invokeMain] runs it on the database [db]. *)
Definition rewriter_run (db : database) : result unit * world :=
  __init__ fuel (arg_search args) (arg_replace args) (arg_regex args)
    (arg_dry_run args) (arg_ignore_case args) {| file := db; txn := db; log := [] |}.

Lemma confirm_events (lines : list str) (ev : main_event) :
  In ev (snd (confirm lines)) -> exists r, ev = MInput r.
Proof.
  unfold confirm. pose proof (ask_events lines ev) as H.
  destruct (ask lines) as [[r|] asked]; exact H.
Qed.

Lemma confirm_go (lines : list str) :
  fst (confirm lines) = Go ->
  exists r, In (MInput r) (snd (confirm lines)) /\ In r yesChoice.
Proof.
  unfold confirm. pose proof (ask_answer lines) as H.
  destruct (ask lines) as [[r|] asked]; cbn [fst snd] in *; [|discriminate].
  destruct (in_dec str_eq_dec r noChoice) as [|Hno]; cbn [fst snd]; [discriminate|].
  intros _.
  destruct (H r eq_refl) as [Hacc Hin]. exists r. split; [exact Hin|].
  now apply accepted_yes_or_no.
Qed.

(** The output archive is written only in write mode, for an input file
    that exists and is named [.ewsx], after the rewriter has returned, and
    it then holds the committed database; an output file that was there is
    overwritten only after one of the yes answers was typed. *)
Theorem invokeMain_writes_output (output : str) (db' : database) :
  In (MZip output db') (snd (invokeMain env fuel args)) ->
  arg_dry_run args = false /\
  isfile env (inputfile args) = true /\
  endswith (inputfile args) ewsx = true /\
  output = getAbsoluteOutPath (outputfile args) /\
  (isfile env output = true ->
   exists r, In (MInput r) (snd (invokeMain env fuel args)) /\ In r yesChoice) /\
  exists db w,
    archive env = Some db /\ rewriter_run db = (Ok tt, w) /\ db' = file w.
Proof.
  unfold invokeMain, rewriter_run.
  destruct (isfile env (inputfile args)); [|intros []].
  destruct (endswith (inputfile args) ewsx); [|intros []]. cbn [negb].
  set (out := getAbsoluteOutPath (outputfile args)).
  destruct (arg_dry_run args) eqn:Hdry; cbn [negb andb].
  - destruct (archive env) as [db|]; [|intros []].
    destruct (__init__ _ _ _ _ _ _ _) as [[[]|e|] w]; cbn [fst snd];
      [destruct (rmtree_ok env)| |]; simpl; intuition discriminate.
  - destruct (isfile env out) eqn:Hout.
    + pose proof (confirm_events (stdin env)) as Hev.
      pose proof (confirm_go (stdin env)) as Hgo.
      destruct (confirm (stdin env)) as [go asked]. cbn [fst snd] in *.
      assert (~ In (MZip output db') asked) as Hnot
        by (intros Hin; destruct (Hev _ Hin); discriminate).
      destruct go; [|intros Hin; contradiction|intros Hin; contradiction].
      destruct (archive env) as [db|]; [|intros Hin; contradiction].
      destruct (__init__ _ _ _ _ _ _ _) as [[[]|e|] w] eqn:Hrun; cbn [fst snd].
      * destruct (Hgo eq_refl) as (r & Hr & Hyes).
        destruct (rmtree_ok env); cbn [snd]; intros Hin;
          rewrite ?in_app_iff in Hin; cbn [In] in Hin;
          (assert (MZip out (file w) = MZip output db') as [= <- <-] by
             (intuition (try discriminate; try contradiction)));
          repeat split; try reflexivity;
          try (intros _; exists r; split; [rewrite ?in_app_iff; tauto | exact Hyes]);
          exists db, w; auto.
      * cbn [snd]. intros Hin. rewrite in_app_iff in Hin. cbn [In] in Hin.
        intuition (try discriminate; try contradiction).
      * cbn [snd]. intros Hin. rewrite in_app_iff in Hin. cbn [In] in Hin.
        intuition (try discriminate; try contradiction).
    + destruct (archive env) as [db|]; [|intros []].
      destruct (__init__ _ _ _ _ _ _ _) as [[[]|e|] w] eqn:Hrun; cbn [fst snd].
      * destruct (rmtree_ok env); cbn [snd app]; intros Hin;
          (assert (MZip out (file w) = MZip output db') as [= <- <-] by
             (cbn [In] in Hin; intuition (try discriminate; try contradiction)));
          repeat split; try reflexivity; try (rewrite Hout; discriminate);
          exists db, w; auto.
      * cbn [snd app In]. intuition discriminate.
      * cbn [snd app In]. intuition discriminate.
Qed.

(** A dry run asks nothing and writes no archive, and the database the
    rewriter leaves is the one that was unpacked. *)
Theorem invokeMain_dry_run :
  arg_dry_run args = true ->
  (forall ev, In ev (snd (invokeMain env fuel args)) ->
     match ev with
     | MZip _ _ | MInput _ => False
     | _ => True
     end) /\
  (forall w, In (MRewriter w) (snd (invokeMain env fuel args)) ->
     exists db, archive env = Some db /\ file w = db /\ txn w = db).
Proof.
  intros Hdry. unfold invokeMain. rewrite Hdry.
  destruct (isfile env (inputfile args)); [|split; intros ? []].
  destruct (endswith (inputfile args) ewsx); [|split; intros ? []]. cbn [negb andb].
  destruct (archive env) as [db|]; [|split; intros ? []].
  pose proof (init_dry_keeps_unwritten fuel (arg_search args) (arg_replace args)
                (arg_regex args) (arg_ignore_case args)
                {| file := db; txn := db; log := [] |}) as (Hf & Ht & _).
  cbn [file txn] in Hf, Ht.
  assert (txn (snd (__init__ fuel (arg_search args) (arg_replace args) (arg_regex args)
                      true (arg_ignore_case args) {| file := db; txn := db; log := [] |}))
          = db) as Ht' by (destruct Ht as [Ht|Ht]; exact Ht).
  destruct (__init__ _ _ _ _ _ _ _) as [[[]|e|] w]; cbn [fst snd] in *;
    [destruct (rmtree_ok env)| |]; cbn [snd app In]; split.
  all: try (intros ev Hin; intuition (subst; exact I)).
  all: intros w0 Hin; exists db; split; [reflexivity|].
  all: assert (w0 = w) as Hw by intuition congruence.
  all: rewrite Hw; split; [exact Hf | exact Ht'].
Qed.

(** The temporary directory is removed, and the run reported as done, only
    after the rewriter has returned: when it raises or does not end, the
    unpacked files stay behind. *)
Theorem invokeMain_cleans_up :
  In MCleanup (snd (invokeMain env fuel args)) \/ fst (invokeMain env fuel args) = Completed ->
  exists db w, archive env = Some db /\ rewriter_run db = (Ok tt, w).
Proof.
  unfold invokeMain, rewriter_run.
  destruct (isfile env (inputfile args)); [|intros [[]|]; discriminate].
  destruct (endswith (inputfile args) ewsx); [|intros [[]|]; discriminate]. cbn [negb].
  assert (forall asked : list main_event,
            (forall ev, In ev asked -> exists r, ev = MInput r) ->
            ~ In MCleanup asked) as Hasked
    by (intros asked Hev Hin; destruct (Hev _ Hin); discriminate).
  match goal with
  | |- context [if ?c then confirm (stdin env) else (Go, [])] =>
      assert (forall ev, In ev (snd (if c then confirm (stdin env) else (Go, []))) ->
                exists r, ev = MInput r) as Hev
        by (destruct c; [apply confirm_events | intros ev []]);
      destruct (if c then confirm (stdin env) else (Go, [])) as [go asked]
  end.
  cbn [snd] in Hev. specialize (Hasked asked Hev).
  destruct go; [|intros [|]; [contradiction|discriminate]
                |intros [|]; [contradiction|discriminate]].
  destruct (archive env) as [db|]; [|intros [|]; [contradiction|discriminate]].
  destruct (__init__ _ _ _ _ _ _ _) as [[[]|e|] w] eqn:Hrun; cbn [fst snd].
  - intros _. now exists db, w.
  - intros [Hin|]; [|discriminate]. cbn [snd] in Hin. apply in_app_iff in Hin.
    cbn [In] in Hin. intuition discriminate.
  - intros [Hin|]; [|discriminate]. cbn [snd] in Hin. apply in_app_iff in Hin.
    cbn [In] in Hin. intuition discriminate.
Qed.

(** The question whether to overwrite is repeated until an accepted answer
    comes.  On one of the no answers the program exits with status 0
    before anything is unpacked; when standard input ends first, [input]
    raises. *)
Theorem invokeMain_asks :
  isfile env (inputfile args) = true ->
  endswith (inputfile args) ewsx = true ->
  arg_dry_run args = false ->
  isfile env (getAbsoluteOutPath (outputfile args)) = true ->
  (forall bad r rest,
     stdin env = bad ++ r :: rest ->
     Forall (fun x => accepted x = false) bad ->
     In r noChoice ->
     invokeMain env fuel args = (Exited 0, map MInput (bad ++ [r]))) /\
  (Forall (fun x => accepted x = false) (stdin env) ->
   invokeMain env fuel args = (Uncaught EOFError, map MInput (stdin env))).
Proof.
  intros Hfile Hext Hdry Hout. unfold invokeMain.
  rewrite Hfile, Hext, Hdry, Hout. cbn [negb andb]. unfold confirm. split.
  - intros bad r rest Hin Hbad Hno. rewrite Hin.
    rewrite ask_first_accepted; [|exact Hbad|].
    + now destruct (in_dec str_eq_dec r noChoice).
    + unfold accepted.
      destruct (in_dec str_eq_dec r (yesChoice ++ noChoice)) as [|Hn]; [reflexivity|].
      exfalso. apply Hn, in_app_iff. now right.
  - intros Hbad.
    assert (ask (stdin env) = (None, map MInput (stdin env))) as ->; [|reflexivity].
    induction Hbad as [|x l Hx _ IH]; simpl; [reflexivity|]. now rewrite Hx, IH.
Qed.

(** For an output name that is absolute once it has its extension, the
    output path ends in [.ewsx], a name that has the extension is taken as
    it is, and the path is a fixed point of the function. *)
Theorem getAbsoluteOutPath_extension (out : str) :
  isabs (if endswith out ewsx then out else out ++ ewsx) = true ->
  endswith (getAbsoluteOutPath out) ewsx = true /\
  (endswith out ewsx = true -> getAbsoluteOutPath out = out) /\
  getAbsoluteOutPath (getAbsoluteOutPath out) = getAbsoluteOutPath out.
Proof.
  intros Habs.
  assert (getAbsoluteOutPath out = if endswith out ewsx then out else out ++ ewsx) as Hval
    by (unfold getAbsoluteOutPath; now rewrite Habs).
  assert (endswith (getAbsoluteOutPath out) ewsx = true) as Hend.
  { rewrite Hval. destruct (endswith out ewsx) eqn:Hx; [exact Hx|].
    apply endswith_iff. now exists out. }
  split; [exact Hend|]. split.
  - intros Hx. now rewrite Hval, Hx.
  - unfold getAbsoluteOutPath at 1. rewrite Hend. rewrite Hval at 1. now rewrite Habs.
Qed.

End MainProperties.

(** A POSIX flavour of [os.path], for the examples: a path is absolute when
    it starts with a slash. *)
#[local] Instance posix_paths : OsPath := {|
  isabs := fun p => startswith (lit "/") p;
  abspath := fun p => p;
  join := fun a b => a ++ lit "/" ++ b;
  getcwd := lit "/home/user"
|}.

Definition example_arguments (dry : bool) : arguments :=
  {| inputfile := lit "in.ewsx"; outputfile := lit "/tmp/out";
     arg_search := lit "Great"; arg_replace := lit "GREAT";
     arg_regex := false; arg_ignore_case := false; arg_dry_run := dry |}.

Definition example_environment (answers : list str) : environment :=
  {| isfile := fun p => if str_eq_dec p (lit "in.ewsx") then true
                        else if str_eq_dec p (lit "/tmp/out.ewsx") then true else false;
     stdin := answers;
     archive := Some songs;
     rmtree_ok := true |}.

Lemma invokeMain_writes_output_witness :
  exists r, In r [lit "y"; lit "Y"] /\ In r yesChoice.
Proof.
  destruct (@invokeMain_writes_output literal_engine plain_sqlite posix_paths
              (example_environment [lit "y"; lit "Y"]) 18 (example_arguments false)
              (lit "/tmp/out.ewsx")
              (file (snd (rewriter_run 18 (example_arguments false) songs))))
    as (_ & _ & _ & _ & Hyes & _).
  - vm_compute. tauto.
  - destruct (Hyes eq_refl) as (r & Hin & Hr). exists r. split; [|exact Hr].
    vm_compute in Hin. vm_compute.
    repeat (destruct Hin as [Hin|Hin]; [try discriminate; injection Hin as <-; tauto|]).
    destruct Hin.
Defined.

Lemma invokeMain_dry_run_witness :
  file (snd (rewriter_run 18 (example_arguments true) songs)) = songs.
Proof.
  destruct (@invokeMain_dry_run literal_engine plain_sqlite posix_paths (example_environment []) 18
              (example_arguments true) eq_refl) as [_ H].
  destruct (H (snd (rewriter_run 18 (example_arguments true) songs)))
    as (db & Hdb & Hf & _).
  - right. left. reflexivity.
  - injection Hdb as <-. exact Hf.
Defined.

Lemma invokeMain_cleans_up_witness :
  exists w, rewriter_run 18 (example_arguments true) songs = (Ok tt, w).
Proof.
  destruct (@invokeMain_cleans_up literal_engine plain_sqlite posix_paths (example_environment []) 18
              (example_arguments true) (or_intror eq_refl)) as (db & w & [= <-] & Hrun).
  now exists w.
Defined.

Lemma invokeMain_asks_witness :
  invokeMain (example_environment [lit "y"; lit "maybe"; lit "no"; lit "Y"]) 18
    (example_arguments false)
  = (Exited 0, [MInput (lit "y"); MInput (lit "maybe"); MInput (lit "no")]).
Proof.
  destruct (@invokeMain_asks literal_engine plain_sqlite posix_paths
              (example_environment [lit "y"; lit "maybe"; lit "no"; lit "Y"]) 18
              (example_arguments false) eq_refl eq_refl eq_refl eq_refl) as [H _].
  apply (H [lit "y"; lit "maybe"] (lit "no") [lit "Y"] eq_refl).
  - repeat constructor.
  - simpl. tauto.
Defined.

Lemma getAbsoluteOutPath_extension_witness :
  getAbsoluteOutPath (lit "/tmp/out") = lit "/tmp/out.ewsx"
  /\ getAbsoluteOutPath (getAbsoluteOutPath (lit "/tmp/out")) = getAbsoluteOutPath (lit "/tmp/out").
Proof.
  destruct (@getAbsoluteOutPath_extension posix_paths (lit "/tmp/out") eq_refl)
    as (_ & _ & H).
  split; [reflexivity | exact H].
Defined.
